(** * async_redis: a namespaced facade over a key-value / pub-sub store

    Shallow embedding of [async_redis/client.py] (class [AsyncRedisClient])
    and [async_redis/connection_manager.py] (class [RedisConnectionManager]).

    The redis library is external to the repository.  It is kept abstract:
    a record [RedisLib S] gives, for an arbitrary store state [S], what each
    library call does to the store and what it returns or raises.  The
    client's methods are written once against that interface, in a state
    and exception monad that also records every library call, log line and
    callback invocation in a chronological trace.  Theorems quantify over
    every [RedisLib]; [MemRedis], at the end of the definitions, is a small
    in-memory store used to run the methods on concrete inputs. *)

From Stdlib Require Import ZArith Lia Ascii.
From stdpp Require Import base strings list gmap.

Open Scope string_scope.
Open Scope list_scope.

(** ** Python exceptions *)

Inductive exn_class :=
  | RedisError            (* redis.exceptions.RedisError *)
  | RedisConnectionError  (* redis.exceptions.ConnectionError *)
  | RedisTimeoutError     (* redis.exceptions.TimeoutError *)
  | LockError             (* redis.exceptions.LockError *)
  | AttributeError
  | TypeError
  | ValueError
  | RuntimeError.

Record exn := mkExn { exn_class_of : exn_class; exn_str : string }.

(** [isinstance(e, RedisError)]: the redis exceptions all derive from
    [RedisError]; the builtin ones do not. *)
Definition isinstance_RedisError (e : exn) : bool :=
  match exn_class_of e with
  | RedisError | RedisConnectionError | RedisTimeoutError | LockError => true
  | AttributeError | TypeError | ValueError | RuntimeError => false
  end.

Inductive outcome (A : Type) :=
  | Ret (a : A)
  | Raise (e : exn).
Arguments Ret {A} a.
Arguments Raise {A} e.

(** ** Objects *)

(** [BlockingConnectionPool(host, port, db, max_connections,
    decode_responses=True)]; [pool_id] is the identity of the object. *)
Record pool := mkPool {
  pool_id : nat;
  pool_host : string;
  pool_port : Z;
  pool_db : Z;
  pool_max_connections : Z;
  pool_decode_responses : bool
}.

(** The [Redis] client object returned by [await Redis(connection_pool=...)]. *)
Record conn := mkConn { conn_id : nat; conn_pool : option pool }.

(** [RedisLock(redis, name)]. *)
Record lock := mkLock { lock_redis : conn; lock_name : string }.

(** The object returned by [conn.pubsub()]. *)
Record pubsub := mkPubsub { pubsub_redis : conn }.

(** A pub/sub message: the dict yielded by [pubsub.listen()], of which the
    code reads ['type'] and ['data']. *)
Record message := mkMessage {
  msg_type : string;
  msg_channel : string;
  msg_data : string
}.

(** How an asynchronous message stream stops: it is exhausted, or asking
    for the next message raises. *)
Inductive stream_end :=
  | EndOfStream
  | StreamRaises (e : exn).

(** [AsyncRedisClient]'s attributes. *)
Record client := mkClient {
  namespace : string;
  _pool : option pool;
  _lock : option lock;
  _conn : option conn
}.

(** [RedisConnectionManager]'s attribute; an attribute may hold [None]. *)
Record manager := mkManager { mgr_pool : option pool }.

(** ** The trace *)

Inductive level := DEBUG | INFO | ERROR.

Inductive call :=
  | CConnect (p : option pool)
  | CAclose (c : conn)
  | CGet (c : conn) (key : string)
  | CSet (c : conn) (key value : string) (ex : option Z)
  | CKeys (c : conn) (pattern : string)
  | CSadd (c : conn) (key : string) (values : list string)
  | CPublish (c : conn) (channel message : string)
  | CLockAcquire (l : lock)
  | CLockRelease (l : lock)
  | CPubsubSubscribe (p : pubsub) (channel : string)
  | CListenNext (p : pubsub)
  | CPubsubAclose (p : pubsub)
  | CPoolDisconnect (p : pool).

Inductive event :=
  | EvCall (c : call)                  (* a library call is started *)
  | EvLog (lv : level) (msg : string)  (* logger.debug / info / error *)
  | EvCallback (payload : string)      (* the callback is entered *)
  | EvCallbackDone (payload : string). (* the awaited callback returned *)

(** ** The redis library, as an interface *)

Record RedisLib (S : Type) := {
  (* await Redis(connection_pool=pool) *)
  redis_connect : option pool -> S -> S * outcome conn;
  (* await conn.aclose() *)
  redis_aclose : conn -> S -> S * outcome unit;
  redis_get : conn -> string -> S -> S * outcome (option string);
  redis_set : conn -> string -> string -> option Z -> S -> S * outcome unit;
  redis_keys : conn -> string -> S -> S * outcome (list string);
  redis_sadd : conn -> string -> list string -> S -> S * outcome Z;
  redis_publish : conn -> string -> string -> S -> S * outcome Z;
  (* await lock.acquire(): True when the lock was obtained.  The lock is a
     key of the store: acquiring and releasing it are round trips on the
     lock's connection and can raise as any other. *)
  lock_acquire : lock -> S -> S * outcome bool;
  (* await lock.release() *)
  lock_release : lock -> S -> S * outcome unit;
  (* await pubsub.subscribe(channel) *)
  pubsub_subscribe : pubsub -> string -> S -> S * outcome unit;
  (* pubsub.listen(): the messages the generator yields and how it stops;
     a stream that never stops is approximated by its finite prefixes *)
  pubsub_listen : pubsub -> S -> list message * stream_end;
  (* await pubsub.aclose(), run when the [async with] block is left *)
  pubsub_aclose : pubsub -> S -> S * outcome unit;
  (* await pool.disconnect() *)
  pool_disconnect : pool -> S -> S * outcome unit
}.
Arguments redis_connect {S} _ _ _.
Arguments redis_aclose {S} _ _ _.
Arguments redis_get {S} _ _ _ _.
Arguments redis_set {S} _ _ _ _ _ _.
Arguments redis_keys {S} _ _ _ _.
Arguments redis_sadd {S} _ _ _ _ _.
Arguments redis_publish {S} _ _ _ _ _.
Arguments lock_acquire {S} _ _ _.
Arguments lock_release {S} _ _ _.
Arguments pubsub_subscribe {S} _ _ _ _.
Arguments pubsub_listen {S} _ _ _.
Arguments pubsub_aclose {S} _ _ _.
Arguments pool_disconnect {S} _ _ _.

(** ** Formatting *)

(** [str] of a tuple of strings, as the f-string in [sadd] prints
    [values]: [('x', 'y')], [('x',)], [()].  Quoting of special
    characters inside an element is not modelled. *)
Fixpoint repr_items (vs : list string) : string :=
  match vs with
  | [] => ""
  | [v] => "'" +:+ v +:+ "'"
  | v :: rest => "'" +:+ v +:+ "', " +:+ repr_items rest
  end.

Definition repr_tuple (vs : list string) : string :=
  match vs with
  | [v] => "('" +:+ v +:+ "',)"
  | _ => "(" +:+ repr_items vs +:+ ")"
  end.

(** ** The monad: state, exceptions, trace *)

Section Program.
Context {S : Type}.

(** [self] is the object the running method belongs to. *)
Record state (O : Type) := mkState {
  self : O;
  store : S;
  trace : list event
}.
Arguments mkState {O} _ _ _.
Arguments self {O} _.
Arguments store {O} _.
Arguments trace {O} _.

Definition M (O A : Type) : Type := state O -> state O * outcome A.

Definition ret {O A} (a : A) : M O A := fun st => (st, Ret a).

Definition bind {O A B} (m : M O A) (k : A -> M O B) : M O B :=
  fun st =>
    match m st with
    | (st', Ret a) => k a st'
    | (st', Raise e) => (st', Raise e)
    end.

Definition raise {O A} (e : exn) : M O A := fun st => (st, Raise e).

Definition emit {O} (ev : event) : M O unit :=
  fun st => (mkState (self st) (store st) (trace st ++ [ev]), Ret tt).

(** A call into the library: recorded on the trace, then answered. *)
Definition lib {O A} (c : call) (f : S -> S * outcome A) : M O A :=
  fun st =>
    let (s', r) := f (store st) in
    (mkState (self st) s' (trace st ++ [EvCall c]), r).

Definition log {O} (lv : level) (msg : string) : M O unit :=
  emit (EvLog lv msg).

Definition get_self {O} : M O O := fun st => (st, Ret (self st)).

Definition put_self {O} (o : O) : M O unit :=
  fun st => (mkState o (store st) (trace st), Ret tt).

(** [try: body  except RedisError as e: handler e] *)
Definition try_except_RedisError {O A}
    (body : M O A) (handler : exn -> M O A) : M O A :=
  fun st =>
    match body st with
    | (st', Ret a) => (st', Ret a)
    | (st', Raise e) =>
        if isinstance_RedisError e then handler e st' else (st', Raise e)
    end.

(** [try: body  finally: fin]: [fin] always runs; an exception of [fin]
    replaces the outcome of [body]. *)
Definition try_finally {O A} (body : M O A) (fin : M O unit) : M O A :=
  fun st =>
    match body st with
    | (st', r) =>
        match fin st' with
        | (st'', Ret _) => (st'', r)
        | (st'', Raise e) => (st'', Raise e)
        end
    end.

(** [async with cm as x: body], for a context manager whose [__aexit__]
    returns [None] (it never suppresses the exception of [body]), as
    both [RedisLock] and [PubSub] do. *)
Definition async_with {O A B}
    (aenter : M O A) (aexit : M O unit) (body : A -> M O B) : M O B :=
  bind aenter (fun x => try_finally (body x) aexit).

End Program.

Arguments state : clear implicits.
Arguments M : clear implicits.
Arguments mkState {S O} _ _ _.
Arguments self {S O} _.
Arguments store {S O} _.
Arguments trace {S O} _.

Notation "'let!' x ':=' c1 'in' c2" := (bind c1 (fun x => c2))
  (at level 10, x name, c1 at level 100, c2 at level 200, only parsing).
Notation "c1 ';;;' c2" := (bind c1 (fun _ => c2))
  (at level 100, c2 at level 200, right associativity, only parsing).

(** ** The callback of a subscription

    [subscribe] awaits a coroutine function of the caller.  It may keep
    state of its own between two deliveries, so that it returns on one and
    raises on a later one, be the payload the same: it is a machine with a
    state, a step and the state it is in.  What it does besides returning
    or raising is its own business and is not recorded. *)
Record coroutine := mkCoroutine {
  co_state : Type;
  co_call : co_state -> string -> co_state * outcome unit;
  co_now : co_state
}.

(** One delivery: the outcome, and the coroutine as the delivery leaves it. *)
Definition invoke (callback : coroutine) (payload : string)
    : coroutine * outcome unit :=
  let (next, r) := co_call callback (co_now callback) payload in
  (mkCoroutine (co_state callback) (co_call callback) next, r).

(** A callback without state: a function of the payload. *)
Definition stateless (f : string -> outcome unit) : coroutine :=
  {| co_state := unit; co_call := fun c payload => (c, f payload); co_now := tt |}.

(** ** [AsyncRedisClient] *)

Section Client.
Context {S : Type} (R : RedisLib S).

(** A method of the client: it runs on a client object and a store. *)
Local Abbreviation method := (M S client).

(** [RedisConnectionManager.get_pool] *)
Definition get_pool (m : manager) : option pool := mgr_pool m.

(** [AsyncRedisClient.__init__] *)
Definition AsyncRedisClient (ns : string) (connection_manager : manager) : client :=
  {| namespace := ns;
     _pool := get_pool connection_manager;
     _lock := None;
     _conn := None |}.

Definition set_conn (c : client) (k : option conn) : client :=
  {| namespace := namespace c; _pool := _pool c; _lock := _lock c; _conn := k |}.

Definition set_lock (c : client) (l : option lock) : client :=
  {| namespace := namespace c; _pool := _pool c; _lock := l; _conn := _conn c |}.

(** [self._conn.<attr>]: an attribute lookup on [None] raises. *)
Definition the_conn (attr : string) : method conn :=
  let! c := get_self in
  match _conn c with
  | Some k => ret k
  | None =>
      raise (mkExn AttributeError
               ("'NoneType' object has no attribute '" +:+ attr +:+ "'"))
  end.

(** [async with self._lock: body].  [RedisLock.__aenter__] awaits
    [acquire()] and raises [LockError] when it answers [False];
    [__aexit__] awaits [release()].  [None] is not a context manager. *)
Definition with_lock {A} (body : method A) : method A :=
  let! c := get_self in
  match _lock c with
  | None =>
      raise (mkExn TypeError
               "'NoneType' object does not support the asynchronous context manager protocol")
  | Some l =>
      async_with
        (let! acquired := lib (CLockAcquire l) (lock_acquire R l) in
         if (acquired : bool) then ret tt
         else raise (mkExn LockError
                       "Unable to acquire lock within the time specified"))
        (lib (CLockRelease l) (lock_release R l))
        (fun _ => body)
  end.

(** [AsyncRedisClient.init]; [__await__] delegates to it.  The awaited
    [Redis(...)] is the one step that can raise: [RedisLock(...)] builds an
    object and makes no round trip. *)
Definition init : method client :=
  try_except_RedisError
    (let! c := get_self in
     let! k := lib (CConnect (_pool c)) (redis_connect R (_pool c)) in
     put_self (set_conn c (Some k)) ;;;
     let! c := get_self in
     put_self (set_lock c
                 (option_map (fun k => mkLock k (namespace c +:+ ":lock"))
                             (_conn c))) ;;;
     let! c := get_self in
     log DEBUG ("Initialized Redis connection for namespace " +:+ namespace c))
    (fun e =>
       let! c := get_self in
       log ERROR ("Error initializing Redis connection for " +:+ namespace c
                  +:+ ": " +:+ exn_str e) ;;;
       raise e) ;;;
  get_self.

Definition __await__ : method client := init.

(** [AsyncRedisClient.close].  [if self._conn:] tests the reference: a
    [Redis] object is always true. *)
Definition close : method unit :=
  let! c := get_self in
  match _conn c with
  | Some k =>
      try_finally
        (try_except_RedisError
           (lib (CAclose k) (redis_aclose R k) ;;;
            log INFO ("Closed Redis connection for namespace " +:+ namespace c))
           (fun e =>
              log ERROR ("Error closing Redis connection for " +:+ namespace c
                         +:+ ": " +:+ exn_str e)))
        (let! c := get_self in put_self (set_conn c None))
  | None => ret tt
  end.

(** [AsyncRedisClient.__aenter__] *)
Definition __aenter__ : method client :=
  let! c := get_self in
  match _conn c with
  | None => init ;;; get_self
  | Some _ => get_self
  end.

(** [AsyncRedisClient.__aexit__] *)
Definition __aexit__ : method unit :=
  let! c := get_self in
  match _conn c with
  | Some k => lib (CAclose k) (redis_aclose R k)
  | None => ret tt
  end.

(** [AsyncRedisClient.set] *)
Definition set (key value : string) (ex : option Z) : method unit :=
  with_lock
    (try_except_RedisError
       (let! k := the_conn "set" in
        lib (CSet k key value ex) (redis_set R k key value ex) ;;;
        let! c := get_self in
        log DEBUG ("Set key " +:+ key +:+ " in namespace " +:+ namespace c))
       (fun e =>
          let! c := get_self in
          log ERROR ("Error setting key " +:+ key +:+ " in Redis for "
                     +:+ namespace c +:+ ": " +:+ exn_str e))).

(** [AsyncRedisClient.get] *)
Definition get (key : string) : method (option string) :=
  try_except_RedisError
    (let! k := the_conn "get" in
     let! value := lib (CGet k key) (redis_get R k key) in
     let! c := get_self in
     log DEBUG ("Got key " +:+ key +:+ " in namespace " +:+ namespace c) ;;;
     ret value)
    (fun e =>
       let! c := get_self in
       log ERROR ("Error getting key " +:+ key +:+ " in Redis for "
                  +:+ namespace c +:+ ": " +:+ exn_str e) ;;;
       ret None).

(** [AsyncRedisClient.keys] *)
Definition keys (pattern : string) : method (list string) :=
  try_except_RedisError
    (let! k := the_conn "keys" in
     let! ks := lib (CKeys k pattern) (redis_keys R k pattern) in
     let! c := get_self in
     log DEBUG ("Got keys matching pattern " +:+ pattern +:+ " in namespace "
                +:+ namespace c) ;;;
     ret ks)
    (fun e =>
       let! c := get_self in
       log ERROR ("Error getting keys matching pattern " +:+ pattern
                  +:+ " in Redis for " +:+ namespace c +:+ ": " +:+ exn_str e) ;;;
       ret []).

(** [AsyncRedisClient.publish] *)
Definition publish (channel message : string) : method unit :=
  try_except_RedisError
    (let! k := the_conn "publish" in
     lib (CPublish k channel message) (redis_publish R k channel message) ;;;
     let! c := get_self in
     log DEBUG ("Published message to channel " +:+ channel +:+ " in namespace "
                +:+ namespace c))
    (fun e =>
       let! c := get_self in
       log ERROR ("Error publishing message to channel " +:+ channel
                  +:+ " in Redis for " +:+ namespace c +:+ ": " +:+ exn_str e)).

(** [await callback(payload)]: the callback is run to its end before
    [subscribe] goes on; it returns or raises.  The result is the callback
    as this delivery leaves it, for the next one. *)
Definition await_callback (callback : coroutine)
    (payload : string) : method coroutine :=
  emit (EvCallback payload) ;;;
  let! next := (fun st => (st, match invoke callback payload with
                                | (next, Ret _) => Ret next
                                | (_, Raise e) => Raise e
                                end)) in
  emit (EvCallbackDone payload) ;;;
  ret next.

(** [async for message in pubsub.listen(): ...] *)
Fixpoint listen_loop (ps : pubsub) (channel : string)
    (callback : coroutine)
    (msgs : list message) (fin : stream_end) : method unit :=
  emit (EvCall (CListenNext ps)) ;;;
  match msgs with
  | [] =>
      match fin with
      | EndOfStream => ret tt
      | StreamRaises e => raise e
      end
  | message :: rest =>
      let! next :=
        (if String.eqb (msg_type message) "message" then
           let! c := get_self in
           log DEBUG ("Received message from " +:+ channel +:+ " in namespace "
                      +:+ namespace c +:+ ": " +:+ msg_data message) ;;;
           await_callback callback (msg_data message)
         else ret callback) in
      listen_loop ps channel next rest fin
  end.

(** [AsyncRedisClient.subscribe] *)
Definition subscribe (channel : string)
    (callback : coroutine) : method unit :=
  try_except_RedisError
    (let! k := the_conn "pubsub" in
     async_with
       (ret (mkPubsub k))
       (lib (CPubsubAclose (mkPubsub k)) (pubsub_aclose R (mkPubsub k)))
       (fun ps =>
          lib (CPubsubSubscribe ps channel) (pubsub_subscribe R ps channel) ;;;
          let! c := get_self in
          log INFO ("Subscribed to channel: " +:+ channel +:+ " in namespace "
                    +:+ namespace c) ;;;
          let! stream := (fun st => (st, Ret (pubsub_listen R ps (store st)))) in
          listen_loop ps channel callback (fst stream) (snd stream)))
    (fun e =>
       let! c := get_self in
       log ERROR ("Error subscribing to channel " +:+ channel
                  +:+ " in Redis for " +:+ namespace c +:+ ": " +:+ exn_str e)).

(** [AsyncRedisClient.sadd].  The body has no [return]: the call
    evaluates to [None] on every path that does not raise, although the
    annotation announces an [int].  [None] stands for Python's [None]. *)
Definition sadd (key : string) (values : list string) : method (option Z) :=
  with_lock
    (try_except_RedisError
       (let! k := the_conn "sadd" in
        lib (CSadd k key values) (redis_sadd R k key values) ;;;
        let! c := get_self in
        log DEBUG ("Added " +:+ repr_tuple values +:+ " to set " +:+ key
                   +:+ " in namespace " +:+ namespace c))
       (fun e =>
          let! c := get_self in
          log ERROR ("Error adding value to set " +:+ key +:+ " in Redis for "
                     +:+ namespace c +:+ ": " +:+ exn_str e))) ;;;
  ret None.

End Client.

(** ** [RedisConnectionManager] *)

(** Keyword arguments of the constructor; [None] is an argument left out. *)
Record manager_args := mkArgs {
  arg_host : option string;
  arg_port : option Z;
  arg_db : option Z;
  arg_max_connections : option Z
}.

(** [RedisConnectionManager.__init__]: builds a new pool object, whose
    identity is [fresh]. *)
Definition RedisConnectionManager__init__ (a : manager_args) (fresh : nat)
    : manager :=
  {| mgr_pool :=
       Some {| pool_id := fresh;
               pool_host := default "localhost" (arg_host a);
               pool_port := default 6379%Z (arg_port a);
               pool_db := default 0%Z (arg_db a);
               pool_max_connections := default 10%Z (arg_max_connections a);
               pool_decode_responses := true |} |}.

(** What a process holds for the class: the instance the metaclass keeps,
    and the next unused object identity. *)
Record process := mkProcess {
  singleton_instance : option manager;
  next_object_id : nat
}.

Definition fresh_process : process :=
  {| singleton_instance := None; next_object_id := 0 |}.

(** Modelled from the spec: [SingletonMeta] of [async_redis/utils.py], the
    metaclass of [RedisConnectionManager], is not among the sources.  The
    spec: the manager is "created once, lazily, on first access";
    "construction parameters (host, port, db, max-connections) are honored
    only on the very first construction across the process; every later
    construction call silently reuses the first instance and ignores new
    parameters". *)
Definition RedisConnectionManager (a : manager_args) (p : process)
    : process * manager :=
  match singleton_instance p with
  | Some m => (p, m)
  | None =>
      let m := RedisConnectionManager__init__ a (next_object_id p) in
      ({| singleton_instance := Some m;
          next_object_id := Datatypes.S (next_object_id p) |}, m)
  end.

(** Constructing one manager after another, as a program would. *)
Fixpoint construct_all (calls : list manager_args) (p : process)
    : process * list manager :=
  match calls with
  | [] => (p, [])
  | a :: rest =>
      let (p1, m) := RedisConnectionManager a p in
      let (p2, ms) := construct_all rest p1 in
      (p2, m :: ms)
  end.

Section Manager.
Context {S : Type} (R : RedisLib S).

(** [RedisConnectionManager.close] *)
Definition manager_close : M S manager unit :=
  try_except_RedisError
    (let! m := get_self in
     match mgr_pool m with
     | Some p =>
         lib (CPoolDisconnect p) (pool_disconnect R p) ;;;
         log INFO "Closed Redis connection pool"
     | None => ret tt
     end)
    (fun e => log ERROR ("Error closing Redis connection pool: " +:+ exn_str e)).

End Manager.

(** ** Reading a trace *)

Definition is_lock_call (ev : event) : bool :=
  match ev with
  | EvCall (CLockAcquire _) | EvCall (CLockRelease _) => true
  | _ => false
  end.

Definition is_error_log (ev : event) : bool :=
  match ev with EvLog ERROR _ => true | _ => false end.

(** The calls of a trace, without the log lines and callback marks. *)
Fixpoint calls_of (t : list event) : list call :=
  match t with
  | [] => []
  | EvCall c :: rest => c :: calls_of rest
  | _ :: rest => calls_of rest
  end.

(** The payloads the callback was invoked with, in order. *)
Fixpoint delivered (t : list event) : list string :=
  match t with
  | [] => []
  | EvCallback payload :: rest => payload :: delivered rest
  | _ :: rest => delivered rest
  end.

(** What is left of a trace when only the requests for a next message and
    the callback's entries and returns are kept. *)
Fixpoint schedule (t : list event) : list event :=
  match t with
  | [] => []
  | EvCall (CListenNext ps) :: rest => EvCall (CListenNext ps) :: schedule rest
  | EvCallback payload :: rest => EvCallback payload :: schedule rest
  | EvCallbackDone payload :: rest => EvCallbackDone payload :: schedule rest
  | _ :: rest => schedule rest
  end.

(** [message['type'] == 'message'] *)
Definition is_data_message (m : message) : bool :=
  String.eqb (msg_type m) "message".

(** The paired-reference invariant of the specification. *)
Definition paired (c : client) : Prop :=
  (_conn c = None /\ _lock c = None) \/ (_conn c <> None /\ _lock c <> None).

(** What the code maintains instead: a connection comes with a lock. *)
Definition lock_covers_conn (c : client) : Prop :=
  _conn c <> None -> _lock c <> None.

(** A client that [init] has set up: connection and lock present, the lock
    built on that connection under the key ["<namespace>:lock"]. *)
Definition Ready (c : client) : Prop :=
  exists k, _conn c = Some k /\
            _lock c = Some (mkLock k (namespace c +:+ ":lock")).

(** A client on which neither reference is set. *)
Definition Uninitialized (c : client) : Prop :=
  _conn c = None /\ _lock c = None.

#[global] Instance pool_eq_dec : EqDecision pool.
Proof. solve_decision. Defined.
#[global] Instance conn_eq_dec : EqDecision conn.
Proof. solve_decision. Defined.
#[global] Instance lock_eq_dec : EqDecision lock.
Proof. solve_decision. Defined.

#[global] Instance paired_dec (c : client) : Decision (paired c).
Proof. unfold paired. apply _. Defined.
#[global] Instance lock_covers_conn_dec (c : client) : Decision (lock_covers_conn c).
Proof. unfold lock_covers_conn. apply _. Defined.
#[global] Instance Uninitialized_dec (c : client) : Decision (Uninitialized c).
Proof. unfold Uninitialized. apply _. Defined.

(** ** An in-memory store

    A stand-in for the redis library and the server behind it, to run the
    client on concrete inputs.  [mem_fault] injects failures: a call for
    which it answers [Some e] raises [e] and leaves the store untouched. *)

Record mem := mkMem {
  mem_fault : call -> option exn;
  mem_kv : gmap string string;
  mem_sets : gmap string (gset string);
  mem_held : gset string;          (* keys of the locks that are held *)
  mem_subscribed : list string;    (* channels of the open subscription *)
  mem_inbox : list message;        (* data messages on their way *)
  mem_inbox_end : stream_end;
  mem_next_id : nat
}.

Definition mem_with_kv (s : mem) (kv : gmap string string) : mem :=
  mkMem (mem_fault s) kv (mem_sets s) (mem_held s) (mem_subscribed s)
        (mem_inbox s) (mem_inbox_end s) (mem_next_id s).

Definition mem_with_sets (s : mem) (sets : gmap string (gset string)) : mem :=
  mkMem (mem_fault s) (mem_kv s) sets (mem_held s) (mem_subscribed s)
        (mem_inbox s) (mem_inbox_end s) (mem_next_id s).

Definition mem_with_held (s : mem) (held : gset string) : mem :=
  mkMem (mem_fault s) (mem_kv s) (mem_sets s) held (mem_subscribed s)
        (mem_inbox s) (mem_inbox_end s) (mem_next_id s).

Definition mem_with_subscribed (s : mem) (chs : list string) : mem :=
  mkMem (mem_fault s) (mem_kv s) (mem_sets s) (mem_held s) chs
        (mem_inbox s) (mem_inbox_end s) (mem_next_id s).

Definition mem_with_inbox (s : mem) (inbox : list message) : mem :=
  mkMem (mem_fault s) (mem_kv s) (mem_sets s) (mem_held s) (mem_subscribed s)
        inbox (mem_inbox_end s) (mem_next_id s).

Definition mem_with_next_id (s : mem) (n : nat) : mem :=
  mkMem (mem_fault s) (mem_kv s) (mem_sets s) (mem_held s) (mem_subscribed s)
        (mem_inbox s) (mem_inbox_end s) n.

Definition mem_with_fault (s : mem) (f : call -> option exn) : mem :=
  mkMem f (mem_kv s) (mem_sets s) (mem_held s) (mem_subscribed s)
        (mem_inbox s) (mem_inbox_end s) (mem_next_id s).

(** Run [op] unless a fault is injected for the call [c]. *)
Definition faulty {A} (c : call) (op : mem -> mem * outcome A) (s : mem)
    : mem * outcome A :=
  match mem_fault s c with
  | Some e => (s, Raise e)
  | None => op s
  end.

(** Glob matching with [*] as the only wildcard. *)
Fixpoint glob (pattern : string) : string -> bool :=
  match pattern with
  | EmptyString => fun key => String.eqb key ""
  | String c pattern' =>
      if Ascii.eqb c "*"%char then
        fix star (key : string) : bool :=
          glob pattern' key ||
          match key with
          | EmptyString => false
          | String _ key' => star key'
          end
      else
        fun key =>
          match key with
          | EmptyString => false
          | String d key' => Ascii.eqb c d && glob pattern' key'
          end
  end.

Definition MemRedis : RedisLib mem := {|
  redis_connect := fun p =>
    faulty (CConnect p) (fun s =>
      (mem_with_next_id s (Datatypes.S (mem_next_id s)),
       Ret (mkConn (mem_next_id s) p)));
  redis_aclose := fun k =>
    faulty (CAclose k) (fun s => (s, Ret tt));
  redis_get := fun k key =>
    faulty (CGet k key) (fun s => (s, Ret (mem_kv s !! key)));
  redis_set := fun k key value ex =>
    faulty (CSet k key value ex) (fun s =>
      (mem_with_kv s (<[key := value]> (mem_kv s)), Ret tt));
  redis_keys := fun k pattern =>
    faulty (CKeys k pattern) (fun s =>
      (s, Ret (filter (fun key => Is_true (glob pattern key))
                      (map fst (map_to_list (mem_kv s))))));
  redis_sadd := fun k key values =>
    faulty (CSadd k key values) (fun s =>
      let old := default ∅ (mem_sets s !! key) in
      let new := list_to_set values ∖ old in
      (mem_with_sets s (<[key := old ∪ new]> (mem_sets s)),
       Ret (Z.of_nat (size new))));
  redis_publish := fun k channel payload =>
    faulty (CPublish k channel payload) (fun s =>
      (mem_with_inbox s (mem_inbox s ++ [mkMessage "message" channel payload])%list,
       Ret 0%Z));
  lock_acquire := fun l =>
    faulty (CLockAcquire l) (fun s =>
      if decide (lock_name l ∈ mem_held s) then (s, Ret false)
      else (mem_with_held s ({[lock_name l]} ∪ mem_held s), Ret true));
  lock_release := fun l =>
    faulty (CLockRelease l) (fun s =>
      if decide (lock_name l ∈ mem_held s)
      then (mem_with_held s (mem_held s ∖ {[lock_name l]}), Ret tt)
      else (s, Raise (mkExn LockError "Cannot release an unlocked lock")));
  pubsub_subscribe := fun ps channel =>
    faulty (CPubsubSubscribe ps channel) (fun s =>
      (mem_with_subscribed s (mem_subscribed s ++ [channel])%list, Ret tt));
  pubsub_listen := fun ps s =>
    ((map (fun ch => mkMessage "subscribe" ch "1") (mem_subscribed s)
      ++ filter (fun m => msg_channel m ∈ mem_subscribed s) (mem_inbox s))%list,
     mem_inbox_end s);
  pubsub_aclose := fun ps =>
    faulty (CPubsubAclose ps) (fun s => (mem_with_subscribed s [], Ret tt));
  pool_disconnect := fun p =>
    faulty (CPoolDisconnect p) (fun s => (s, Ret tt))
|}.

Definition no_fault : call -> option exn := fun _ => None.

(** The store answers nothing: every round trip raises. *)
Definition unreachable : call -> option exn :=
  fun _ => Some (mkExn RedisConnectionError "Connection refused").

Definition empty_mem : mem :=
  {| mem_fault := no_fault;
     mem_kv := ∅;
     mem_sets := ∅;
     mem_held := ∅;
     mem_subscribed := [];
     mem_inbox := [];
     mem_inbox_end := EndOfStream;
     mem_next_id := 0 |}.

(** A manager as its constructor with no argument builds it, a client for
    the namespace ["ns"], and the state in which its methods start. *)
Definition demo_manager : manager :=
  snd (RedisConnectionManager (mkArgs None None None None) fresh_process).

Definition demo_client : client := AsyncRedisClient "ns" demo_manager.

Definition start (s : mem) : state mem client :=
  {| self := demo_client; store := s; trace := [] |}.

(** The state a method leaves behind, to chain calls. *)
Definition after {S O A} (m : M S O A) (st : state S O) : state S O := fst (m st).
Definition result {S O A} (m : M S O A) (st : state S O) : outcome A := snd (m st).

(** [st] with more events on its trace. *)
Definition push {S O} (st : state S O) (evs : list event) : state S O :=
  {| self := self st; store := store st; trace := trace st ++ evs |}.

(** The demo client after a successful [init]. *)
Definition ready (s : mem) : state mem client := after (init MemRedis) (start s).

(** The methods of the client, to speak of "every operation". *)
Inductive op :=
  | OpInit
  | OpAwait
  | OpClose
  | OpAenter
  | OpAexit
  | OpSet (key value : string) (ex : option Z)
  | OpGet (key : string)
  | OpKeys (pattern : string)
  | OpPublish (channel message : string)
  | OpSubscribe (channel : string) (callback : coroutine)
  | OpSadd (key : string) (values : list string).

Definition run_op {S} (R : RedisLib S) (o : op) (st : state S client)
    : state S client :=
  match o with
  | OpInit => after (init R) st
  | OpAwait => after (__await__ R) st
  | OpClose => after (close R) st
  | OpAenter => after (__aenter__ R) st
  | OpAexit => after (__aexit__ R) st
  | OpSet key value ex => after (set R key value ex) st
  | OpGet key => after (get R key) st
  | OpKeys pattern => after (keys R pattern) st
  | OpPublish channel message => after (publish R channel message) st
  | OpSubscribe channel callback => after (subscribe R channel callback) st
  | OpSadd key values => after (sadd R key values) st
  end.

(** Operations run one after the other, whatever each returns or raises. *)
Definition run_ops {S} (R : RedisLib S) (ops : list op) (st : state S client)
    : state S client :=
  fold_left (fun st o => run_op R o st) ops st.

(** The part of the schedule one message accounts for: it is requested,
    and when it is a data message the callback runs to its end. *)
Definition slot (ps : pubsub) (m : message) : list event :=
  EvCall (CListenNext ps) ::
  (if is_data_message m
   then [EvCallback (msg_data m); EvCallbackDone (msg_data m)]
   else []).

(** The callback once the data messages of [msgs] have been delivered to
    it one after the other, when it returned on each of them. *)
Fixpoint callback_after (callback : coroutine) (msgs : list message)
    : option coroutine :=
  match msgs with
  | [] => Some callback
  | m :: rest =>
      if is_data_message m then
        match invoke callback (msg_data m) with
        | (next, Ret _) => callback_after next rest
        | (_, Raise _) => None
        end
      else callback_after callback rest
  end.

(** The callback returns normally on every delivery of the data messages
    of [msgs]. *)
Definition callback_returns (callback : coroutine) (msgs : list message) : Prop :=
  is_Some (callback_after callback msgs).

(** ** Concrete scenarios *)

Definition store_error : exn := mkExn RedisConnectionError "Connection refused".

(** Only the calls that read or write data fail; locks, connections and
    subscriptions work. *)
Definition data_calls_fail : call -> option exn :=
  fun c =>
    match c with
    | CGet _ _ | CSet _ _ _ _ | CKeys _ _ | CSadd _ _ _ | CPublish _ _ _ =>
        Some store_error
    | _ => None
    end.

(** An initialised client whose store then behaves as [fault] says. *)
Definition ready_then (fault : call -> option exn) : state mem client :=
  {| self := self (ready empty_mem);
     store := mem_with_fault (store (ready empty_mem)) fault;
     trace := [] |}.

(** The connection and the lock of the demo client once initialised. *)
Definition demo_conn : conn := mkConn 0 (Some (mkPool 0 "localhost" 6379 0 10 true)).
Definition demo_lock : lock := mkLock demo_conn "ns:lock".

(** A subscription to ["news"] that will see one control message of the
    server's own, then two data messages. *)
Definition demo_inbox : list message :=
  [ mkMessage "message" "news" "x"; mkMessage "message" "news" "y" ].

Definition listening : state mem client :=
  {| self := self (ready empty_mem);
     store := mem_with_inbox (store (ready empty_mem)) demo_inbox;
     trace := [] |}.

(** A callback that accepts everything, and one that fails on ["x"] with an
    exception of the application. *)
Definition accept_all : coroutine := stateless (fun _ => Ret tt).

Definition reject_x : coroutine :=
  stateless (fun payload =>
               if String.eqb payload "x"
               then Raise (mkExn ValueError "bad payload")
               else Ret tt).


(** ** Predicates and scenarios for the operations taken one by one *)

(** The lock, when there is one, is keyed ["<namespace>:lock"]. *)
Definition lock_named (c : client) : Prop :=
  forall l, _lock c = Some l -> lock_name l = namespace c +:+ ":lock".

(** The method raises an exception that is not a store error and leaves
    the client, the store and the trace as they were. *)
Definition fails_untouched {S A} (m : M S client A) (st : state S client) : Prop :=
  exists e, m st = (st, Raise e) /\ isinstance_RedisError e = false.

(** An exception that is not a store error. *)
Definition crash : exn := mkExn RuntimeError "Event loop is closed".

(** Faults on the calls [p] selects. *)
Definition fail_when (p : call -> bool) (e : exn) : call -> option exn :=
  fun c => if p c then Some e else None.

Definition is_aclose (c : call) : bool :=
  match c with CAclose _ => true | _ => false end.

Definition is_acquire (c : call) : bool :=
  match c with CLockAcquire _ => true | _ => false end.

Definition is_release (c : call) : bool :=
  match c with CLockRelease _ => true | _ => false end.

Definition is_data (c : call) : bool :=
  match c with
  | CGet _ _ | CSet _ _ _ _ | CKeys _ _ | CSadd _ _ _ | CPublish _ _ _ => true
  | _ => false
  end.

Definition is_pubsub_subscribe (c : call) : bool :=
  match c with CPubsubSubscribe _ _ => true | _ => false end.

(** The demo client initialised and then closed, on a working store. *)
Definition closed : state mem client := after (close MemRedis) (ready empty_mem).

(** A subscription whose stream breaks after the two data messages. *)
Definition listening_broken : state mem client :=
  {| self := self (ready empty_mem);
     store := mkMem no_fault ∅ ∅ ∅ [] demo_inbox (StreamRaises store_error) 1;
     trace := [] |}.

(** A callback that counts its deliveries: it returns on the first and
    raises [e] on every later one, whatever the payloads. *)
Definition fails_after_the_first (e : exn) : coroutine :=
  {| co_state := nat;
     co_call := fun n _ =>
       (Datatypes.S n, match n with 0 => Ret tt | _ => Raise e end);
     co_now := 0 |}.

(** A subscription on which the same payload arrives twice. *)
Definition repeated_inbox : list message :=
  [ mkMessage "message" "news" "x"; mkMessage "message" "news" "x";
    mkMessage "message" "news" "y" ].

Definition listening_twice : state mem client :=
  {| self := self (ready empty_mem);
     store := mem_with_inbox (store (ready empty_mem)) repeated_inbox;
     trace := [] |}.

Definition is_pubsub_aclose (c : call) : bool :=
  match c with CPubsubAclose _ => true | _ => false end.

(** A subscription whose pub/sub handle cannot be closed. *)
Definition listening_unclosable : state mem client :=
  {| self := self (ready empty_mem);
     store := mem_with_fault
                (mem_with_inbox (store (ready empty_mem)) demo_inbox)
                (fail_when is_pubsub_aclose store_error);
     trace := [] |}.

(** What [subscribe] makes of an exception [e0] that leaves the pub/sub
    block: a store error is logged and [subscribe] returns; another
    exception leaves [subscribe] unlogged. *)
Definition handled {S} (channel : string) (st : state S client) (e0 : exn)
    : outcome unit * list event :=
  if isinstance_RedisError e0
  then (Ret tt,
        [EvLog ERROR ("Error subscribing to channel " +:+ channel
                      +:+ " in Redis for " +:+ namespace (self st)
                      +:+ ": " +:+ exn_str e0)])
  else (Raise e0, []).

(** * Theorems *)

(** Unfolding the monad's combinators down to the library's answers. *)
Ltac unfold_monad :=
  unfold after, result, async_with, try_finally, try_except_RedisError,
    log, emit, lib, bind, ret, raise, get_self, put_self in *.

(** Case analysis on an innermost scrutinee of the goal: the answer of a
    library call, an attribute, a test. *)
Ltac case_step :=
  match goal with
  | H : ?x = _ |- context [match ?x with _ => _ end] => rewrite H
  | |- context [match ?x with _ => _ end] =>
      lazymatch x with
      | context [match _ with _ => _ end] => fail
      | _ => destruct x eqn:?
      end
  end.

Ltac run_method := unfold_monad; simpl; repeat (case_step; simpl in *).

Ltac finish := intros; simplify_eq; eauto.

(** *** Traces *)

Lemma calls_of_app (t1 t2 : list event) :
  calls_of (t1 ++ t2) = calls_of t1 ++ calls_of t2.
Proof.
  induction t1 as [|[c| | |] t1 IH]; simpl; try rewrite IH; reflexivity.
Qed.

Lemma delivered_app (t1 t2 : list event) :
  delivered (t1 ++ t2) = delivered t1 ++ delivered t2.
Proof.
  induction t1 as [|[| |p|] t1 IH]; simpl; try rewrite IH; reflexivity.
Qed.

Lemma schedule_app (t1 t2 : list event) :
  schedule (t1 ++ t2) = schedule t1 ++ schedule t2.
Proof.
  induction t1 as [|[[]| | |] t1 IH]; simpl; try rewrite IH; reflexivity.
Qed.

Create Rewrite HintDb trace.
#[export] Hint Rewrite calls_of_app delivered_app schedule_app
  List.filter_app : trace.
#[export] Hint Rewrite <- app_assoc : trace.

Ltac trace_simpl := autorewrite with trace; simpl; rewrite ?app_nil_r.

(** *** The in-memory store at work *)

Example demo_ready_self :
  self (ready empty_mem) =
  {| namespace := "ns";
     _pool := Some (mkPool 0 "localhost" 6379 0 10 true);
     _lock := Some (mkLock (mkConn 0 (Some (mkPool 0 "localhost" 6379 0 10 true))) "ns:lock");
     _conn := Some (mkConn 0 (Some (mkPool 0 "localhost" 6379 0 10 true))) |}.
Proof. vm_compute. reflexivity. Qed.

Example demo_set_get :
  result (get MemRedis "a") (after (set MemRedis "a" "1" None) (ready empty_mem))
  = Ret (Some "1").
Proof. vm_compute. reflexivity. Qed.

Example demo_keys :
  result (keys MemRedis "a*")
         (after (set MemRedis "b" "2" None)
            (after (set MemRedis "ab" "1" None) (ready empty_mem)))
  = Ret ["ab"].
Proof. vm_compute. reflexivity. Qed.

Section ClientFacts.
Context {S : Type} (R : RedisLib S).
Implicit Types (st : state S client) (e : exn) (k : conn) (l : lock).

(** *** [init] *)

Lemma init_raise_inv st e :
  result (init R) st = Raise e ->
  exists s', redis_connect R (_pool (self st)) (store st) = (s', Raise e).
Proof. unfold init. run_method; finish. Qed.

Lemma init_raise_self st e :
  result (init R) st = Raise e -> self (after (init R) st) = self st.
Proof. unfold init. run_method; finish; discriminate. Qed.

Lemma init_connect_error st s' e :
  redis_connect R (_pool (self st)) (store st) = (s', Raise e) ->
  isinstance_RedisError e = true ->
  init R st =
  ({| self := self st;
      store := s';
      trace := trace st ++
        [EvCall (CConnect (_pool (self st)));
         EvLog ERROR ("Error initializing Redis connection for "
                      +:+ namespace (self st) +:+ ": " +:+ exn_str e)] |},
   Raise e).
Proof.
  intros Hc He. unfold init. unfold_monad. simpl. rewrite Hc. simpl.
  rewrite He. simpl. rewrite <- app_assoc. reflexivity.
Qed.

Lemma init_ok_self st c :
  result (init R) st = Ret c ->
  exists k,
    self (after (init R) st) =
    {| namespace := namespace (self st);
       _pool := _pool (self st);
       _lock := Some (mkLock k (namespace (self st) +:+ ":lock"));
       _conn := Some k |}
    /\ c = self (after (init R) st).
Proof. unfold init. run_method; finish; discriminate. Qed.

Lemma init_ok_Ready st c :
  result (init R) st = Ret c -> Ready (self (after (init R) st)).
Proof.
  intros H. destruct (init_ok_self _ _ H) as (k & -> & _).
  exists k. split; reflexivity.
Qed.

Lemma init_covers st :
  lock_covers_conn (self st) -> lock_covers_conn (self (after (init R) st)).
Proof.
  intros Hinv. destruct (result (init R) st) as [c|e] eqn:Hres.
  - destruct (init_ok_self _ _ Hres) as (k & -> & _). intros _. discriminate.
  - rewrite (init_raise_self _ _ Hres). exact Hinv.
Qed.

(** *** [close] and [__aexit__] *)

Lemma close_conn_None st : _conn (self (after (close R) st)) = None.
Proof. unfold close. run_method; finish. Qed.

Lemma close_lock st : _lock (self (after (close R) st)) = _lock (self st).
Proof. unfold close. run_method; finish. Qed.

Lemma close_calls st k :
  _conn (self st) = Some k ->
  calls_of (trace (after (close R) st)) = calls_of (trace st) ++ [CAclose k].
Proof. intros H. unfold close. run_method; finish; trace_simpl; reflexivity. Qed.

Lemma close_when_closed st :
  _conn (self st) = None -> close R st = (st, Ret tt).
Proof. intros H. unfold close. unfold_monad. rewrite H. reflexivity. Qed.

Lemma close_swallows st e :
  result (close R) st = Raise e -> isinstance_RedisError e = false.
Proof. unfold close. run_method; finish; discriminate. Qed.

Lemma aexit_keeps_self st : self (after (__aexit__ R) st) = self st.
Proof. unfold __aexit__. run_method; finish. Qed.

Lemma aexit_calls st k :
  _conn (self st) = Some k ->
  trace (after (__aexit__ R) st) = trace st ++ [EvCall (CAclose k)].
Proof. intros H. unfold __aexit__. run_method; finish. Qed.

(** *** [get], [keys], [publish] *)

Lemma get_not_RedisError st key e :
  result (get R key) st = Raise e -> isinstance_RedisError e = false.
Proof. unfold get, the_conn. run_method; finish; discriminate. Qed.

Lemma get_store_error st k key s' e :
  _conn (self st) = Some k ->
  redis_get R k key (store st) = (s', Raise e) ->
  isinstance_RedisError e = true ->
  get R key st =
  ({| self := self st; store := s';
      trace := trace st ++
        [EvCall (CGet k key);
         EvLog ERROR ("Error getting key " +:+ key +:+ " in Redis for "
                      +:+ namespace (self st) +:+ ": " +:+ exn_str e)] |},
   Ret None).
Proof.
  intros Hk Hg He. unfold get, the_conn. unfold_monad. simpl.
  rewrite Hk. simpl. rewrite Hg. simpl. rewrite He. simpl.
  rewrite <- app_assoc. reflexivity.
Qed.


Lemma get_keeps_self st key : self (after (get R key) st) = self st.
Proof. unfold get, the_conn. run_method; finish. Qed.

Lemma keys_not_RedisError st pattern e :
  result (keys R pattern) st = Raise e -> isinstance_RedisError e = false.
Proof. unfold keys, the_conn. run_method; finish; discriminate. Qed.

Lemma keys_store_error st k pattern s' e :
  _conn (self st) = Some k ->
  redis_keys R k pattern (store st) = (s', Raise e) ->
  isinstance_RedisError e = true ->
  keys R pattern st =
  ({| self := self st; store := s';
      trace := trace st ++
        [EvCall (CKeys k pattern);
         EvLog ERROR ("Error getting keys matching pattern " +:+ pattern
                      +:+ " in Redis for " +:+ namespace (self st)
                      +:+ ": " +:+ exn_str e)] |},
   Ret []).
Proof.
  intros Hk Hg He. unfold keys, the_conn. unfold_monad. simpl.
  rewrite Hk. simpl. rewrite Hg. simpl. rewrite He. simpl.
  rewrite <- app_assoc. reflexivity.
Qed.


Lemma keys_keeps_self st pattern : self (after (keys R pattern) st) = self st.
Proof. unfold keys, the_conn. run_method; finish. Qed.

Lemma publish_not_RedisError st channel message e :
  result (publish R channel message) st = Raise e ->
  isinstance_RedisError e = false.
Proof. unfold publish, the_conn. run_method; finish; discriminate. Qed.

Lemma publish_store_error st k channel message s' e :
  _conn (self st) = Some k ->
  redis_publish R k channel message (store st) = (s', Raise e) ->
  isinstance_RedisError e = true ->
  publish R channel message st =
  ({| self := self st; store := s';
      trace := trace st ++
        [EvCall (CPublish k channel message);
         EvLog ERROR ("Error publishing message to channel " +:+ channel
                      +:+ " in Redis for " +:+ namespace (self st)
                      +:+ ": " +:+ exn_str e)] |},
   Ret tt).
Proof.
  intros Hk Hg He. unfold publish, the_conn. unfold_monad. simpl.
  rewrite Hk. simpl. rewrite Hg. simpl. rewrite He. simpl.
  rewrite <- app_assoc. reflexivity.
Qed.


Lemma publish_keeps_self st channel message :
  self (after (publish R channel message) st) = self st.
Proof. unfold publish, the_conn. run_method; finish. Qed.

(** *** [set] and [sadd] *)

Lemma set_keeps_self st key value ex : self (after (set R key value ex) st) = self st.
Proof. unfold set, with_lock, the_conn. run_method; finish. Qed.

Lemma sadd_keeps_self st key values : self (after (sadd R key values) st) = self st.
Proof. unfold sadd, with_lock, the_conn. run_method; finish. Qed.



Lemma set_store_error st k l key value ex s1 s2 s3 e :
  _conn (self st) = Some k ->
  _lock (self st) = Some l ->
  lock_acquire R l (store st) = (s1, Ret true) ->
  redis_set R k key value ex s1 = (s2, Raise e) ->
  isinstance_RedisError e = true ->
  lock_release R l s2 = (s3, Ret tt) ->
  set R key value ex st =
  ({| self := self st; store := s3;
      trace := trace st ++
        [EvCall (CLockAcquire l);
         EvCall (CSet k key value ex);
         EvLog ERROR ("Error setting key " +:+ key +:+ " in Redis for "
                      +:+ namespace (self st) +:+ ": " +:+ exn_str e);
         EvCall (CLockRelease l)] |},
   Ret tt).
Proof.
  intros Hk Hl Ha Hs He Hr. unfold set, with_lock, the_conn. unfold_monad.
  simpl. rewrite Hl. simpl. rewrite Ha. simpl. rewrite Hk. simpl.
  rewrite Hs. simpl. rewrite He. simpl. rewrite Hr. simpl.
  rewrite <- !app_assoc. reflexivity.
Qed.

Lemma sadd_store_error st k l key values s1 s2 s3 e :
  _conn (self st) = Some k ->
  _lock (self st) = Some l ->
  lock_acquire R l (store st) = (s1, Ret true) ->
  redis_sadd R k key values s1 = (s2, Raise e) ->
  isinstance_RedisError e = true ->
  lock_release R l s2 = (s3, Ret tt) ->
  sadd R key values st =
  ({| self := self st; store := s3;
      trace := trace st ++
        [EvCall (CLockAcquire l);
         EvCall (CSadd k key values);
         EvLog ERROR ("Error adding value to set " +:+ key +:+ " in Redis for "
                      +:+ namespace (self st) +:+ ": " +:+ exn_str e);
         EvCall (CLockRelease l)] |},
   Ret None).
Proof.
  intros Hk Hl Ha Hs He Hr. unfold sadd, with_lock, the_conn. unfold_monad.
  simpl. rewrite Hl. simpl. rewrite Ha. simpl. rewrite Hk. simpl.
  rewrite Hs. simpl. rewrite He. simpl. rewrite Hr. simpl.
  rewrite <- !app_assoc. reflexivity.
Qed.

Lemma sadd_result_inv st key values r :
  result (sadd R key values) st = Ret r -> r = None.
Proof. unfold sadd, with_lock, the_conn. run_method; finish; discriminate. Qed.

(** *** [subscribe] *)

Lemma listen_loop_nil ps channel callback fin st :
  listen_loop ps channel callback [] fin st =
  (push st [EvCall (CListenNext ps)],
   match fin with EndOfStream => Ret tt | StreamRaises e => Raise e end).
Proof. destruct fin; reflexivity. Qed.

Lemma listen_loop_control ps channel callback m rest fin st :
  is_data_message m = false ->
  listen_loop ps channel callback (m :: rest) fin st =
  listen_loop ps channel callback rest fin (push st [EvCall (CListenNext ps)]).
Proof.
  unfold is_data_message. intros Hm. simpl. unfold_monad. simpl.
  rewrite Hm. reflexivity.
Qed.

Lemma listen_loop_data ps channel callback next m rest fin st :
  is_data_message m = true ->
  invoke callback (msg_data m) = (next, Ret tt) ->
  listen_loop ps channel callback (m :: rest) fin st =
  listen_loop ps channel next rest fin
    (push st [EvCall (CListenNext ps);
              EvLog DEBUG ("Received message from " +:+ channel
                           +:+ " in namespace " +:+ namespace (self st)
                           +:+ ": " +:+ msg_data m);
              EvCallback (msg_data m);
              EvCallbackDone (msg_data m)]).
Proof.
  unfold is_data_message. intros Hm Hcb. simpl. unfold await_callback.
  unfold_monad. simpl. rewrite Hm. simpl. rewrite Hcb. unfold push. simpl.
  rewrite <- !app_assoc. reflexivity.
Qed.

Lemma listen_loop_callback_raises ps channel callback next m rest fin st e :
  is_data_message m = true ->
  invoke callback (msg_data m) = (next, Raise e) ->
  listen_loop ps channel callback (m :: rest) fin st =
  (push st [EvCall (CListenNext ps);
            EvLog DEBUG ("Received message from " +:+ channel
                         +:+ " in namespace " +:+ namespace (self st)
                         +:+ ": " +:+ msg_data m);
            EvCallback (msg_data m)],
   Raise e).
Proof.
  unfold is_data_message. intros Hm Hcb. simpl. unfold await_callback.
  unfold_monad. simpl. rewrite Hm. simpl. rewrite Hcb. unfold push. simpl.
  rewrite <- !app_assoc. reflexivity.
Qed.

Lemma push_push st (t1 t2 : list event) :
  push (push st t1) t2 = push st (t1 ++ t2).
Proof. unfold push. simpl. rewrite <- app_assoc. reflexivity. Qed.

(** Whatever the stream and the callback, the loop only adds to the
    trace, and neither lock calls nor error lines. *)
Lemma listen_loop_push ps channel msgs fin :
  forall callback st, exists t,
    after (listen_loop ps channel callback msgs fin) st = push st t /\
    List.filter is_lock_call t = [] /\ List.filter is_error_log t = [].
Proof.
  induction msgs as [|m rest IH]; intros callback st.
  - unfold after; rewrite listen_loop_nil. eexists. split; [reflexivity|]. by split.
  - destruct (is_data_message m) eqn:Hm.
    + destruct (invoke callback (msg_data m)) as [next [[]|e]] eqn:Hcb.
      * unfold after; rewrite (listen_loop_data _ _ _ _ _ _ _ _ Hm Hcb).
        match goal with |- context [listen_loop _ _ ?c _ _ ?st'] =>
          destruct (IH c st') as (t & Ht & Hl & He) end.
        unfold after in Ht. rewrite Ht, push_push. eexists.
        split; [reflexivity|]. rewrite !List.filter_app, Hl, He. by split.
      * unfold after; rewrite (listen_loop_callback_raises _ _ _ _ _ _ _ _ _ Hm Hcb).
        eexists. split; [reflexivity|]. by split.
    + unfold after; rewrite (listen_loop_control _ _ _ _ _ _ _ Hm).
      destruct (IH callback (push st [EvCall (CListenNext ps)])) as (t & Ht & Hl & He).
      unfold after in Ht. rewrite Ht, push_push. eexists.
      split; [reflexivity|]. rewrite !List.filter_app, Hl, He. by split.
Qed.

(** [callback_after], one message at a time. *)
Lemma callback_after_data callback m rest final :
  is_data_message m = true ->
  callback_after callback (m :: rest) = Some final ->
  exists next, invoke callback (msg_data m) = (next, Ret tt) /\
               callback_after next rest = Some final.
Proof.
  intros Hd. simpl. rewrite Hd.
  destruct (invoke callback (msg_data m)) as [next [[]|e]]; [eauto | discriminate].
Qed.

Lemma callback_after_control callback m rest :
  is_data_message m = false ->
  callback_after callback (m :: rest) = callback_after callback rest.
Proof. intros Hd. simpl. rewrite Hd. reflexivity. Qed.

(** The loop when the callback returns on every data message. *)
Lemma listen_loop_returns ps channel msgs fin :
  forall callback, callback_returns callback msgs ->
  forall st, exists t,
    listen_loop ps channel callback msgs fin st =
      (push st t,
       match fin with EndOfStream => Ret tt | StreamRaises e => Raise e end) /\
    delivered t = map msg_data (List.filter is_data_message msgs) /\
    schedule t = flat_map (slot ps) msgs ++ [EvCall (CListenNext ps)].
Proof.
  induction msgs as [|m rest IH]; intros callback [final Hfinal] st.
  - rewrite listen_loop_nil. eexists. split; [reflexivity|]. by split.
  - destruct (is_data_message m) eqn:Hd.
    + destruct (callback_after_data _ _ _ _ Hd Hfinal) as (next & Hcb & Hrest).
      rewrite (listen_loop_data _ _ _ _ _ _ _ _ Hd Hcb).
      match goal with |- context [listen_loop _ _ _ _ _ ?st'] =>
        destruct (IH next (ex_intro _ final Hrest) st') as (t & -> & Hdel & Hsch) end.
      rewrite push_push. eexists. split; [reflexivity|].
      rewrite delivered_app, schedule_app, Hdel, Hsch.
      simpl. unfold slot at 2. rewrite Hd. by split.
    + rewrite (callback_after_control _ _ _ Hd) in Hfinal.
      rewrite (listen_loop_control _ _ _ _ _ _ _ Hd).
      match goal with |- context [listen_loop _ _ _ _ _ ?st'] =>
        destruct (IH callback (ex_intro _ final Hfinal) st') as (t & -> & Hdel & Hsch) end.
      rewrite push_push. eexists. split; [reflexivity|].
      rewrite delivered_app, schedule_app, Hdel, Hsch.
      simpl. unfold slot at 2. rewrite Hd. by split.
Qed.

(** The loop when the callback raises on the data message [m], having
    returned on every data message before it and being then [before]. *)
Lemma listen_loop_raises ps channel pre m post fin e before next :
  is_data_message m = true ->
  invoke before (msg_data m) = (next, Raise e) ->
  forall callback, callback_after callback pre = Some before ->
  forall st, exists t,
    listen_loop ps channel callback (pre ++ m :: post) fin st =
      (push st t, Raise e) /\
    delivered t = map msg_data (List.filter is_data_message pre) ++ [msg_data m] /\
    schedule t = flat_map (slot ps) pre ++
                 [EvCall (CListenNext ps); EvCallback (msg_data m)] /\
    List.filter is_error_log t = [].
Proof.
  intros Hd Hcb. induction pre as [|m0 rest IH]; intros callback Hpre st.
  - simpl in Hpre. injection Hpre as ->. simpl app.
    rewrite (listen_loop_callback_raises _ _ _ _ _ _ _ _ _ Hd Hcb).
    eexists. split; [reflexivity|]. by repeat split.
  - rewrite <- app_comm_cons. destruct (is_data_message m0) eqn:Hd0.
    + destruct (callback_after_data _ _ _ _ Hd0 Hpre) as (next0 & Hcb0 & Hrest).
      rewrite (listen_loop_data _ _ _ _ _ _ _ _ Hd0 Hcb0).
      match goal with |- context [listen_loop _ _ _ _ _ ?st'] =>
        destruct (IH next0 Hrest st') as (t & -> & Hdel & Hsch & Herr) end.
      rewrite push_push. eexists. split; [reflexivity|].
      rewrite delivered_app, schedule_app, List.filter_app, Hdel, Hsch, Herr.
      simpl. unfold slot at 2. rewrite Hd0. by repeat split.
    + rewrite (callback_after_control _ _ _ Hd0) in Hpre.
      rewrite (listen_loop_control _ _ _ _ _ _ _ Hd0).
      match goal with |- context [listen_loop _ _ _ _ _ ?st'] =>
        destruct (IH callback Hpre st') as (t & -> & Hdel & Hsch & Herr) end.
      rewrite push_push. eexists. split; [reflexivity|].
      rewrite delivered_app, schedule_app, List.filter_app, Hdel, Hsch, Herr.
      simpl. unfold slot at 2. rewrite Hd0. by repeat split.
Qed.

Lemma subscribe_not_RedisError st channel callback e :
  result (subscribe R channel callback) st = Raise e ->
  isinstance_RedisError e = false.
Proof. unfold subscribe, the_conn. run_method; finish; discriminate. Qed.

Lemma subscribe_keeps_self st channel callback :
  self (after (subscribe R channel callback) st) = self st.
Proof.
  unfold subscribe, the_conn. unfold_monad. simpl.
  destruct (_conn (self st)) as [k|]; [|reflexivity]. simpl.
  destruct (pubsub_subscribe R _ channel (store st)) as [s1 [[]|e]]; simpl.
  - match goal with |- context [listen_loop ?a ?b ?c ?d ?f ?st'] =>
      destruct (listen_loop_push a b d f c st') as (t & Ht & _);
      unfold after in Ht;
      destruct (listen_loop a b c d f st') as [st2 r]; simpl in Ht; subst st2
    end.
    repeat (case_step; simpl in * ); reflexivity.
  - repeat (case_step; simpl in * ); reflexivity.
Qed.


(** [subscribe] when the callback raises [e] on the data message [m]:
    what was delivered and requested, however the pub/sub block is left. *)
Lemma subscribe_callback_raises_trace st k channel callback s1 pre m post fin
    before next e :
  _conn (self st) = Some k ->
  pubsub_subscribe R (mkPubsub k) channel (store st) = (s1, Ret tt) ->
  pubsub_listen R (mkPubsub k) s1 = (pre ++ m :: post, fin) ->
  callback_after callback pre = Some before ->
  is_data_message m = true ->
  invoke before (msg_data m) = (next, Raise e) ->
  delivered (trace (after (subscribe R channel callback) st))
  = delivered (trace st)
    ++ map msg_data (List.filter is_data_message pre) ++ [msg_data m] /\
  schedule (trace (after (subscribe R channel callback) st))
  = schedule (trace st) ++ flat_map (slot (mkPubsub k)) pre
    ++ [EvCall (CListenNext (mkPubsub k)); EvCallback (msg_data m)].
Proof.
  intros Hk Hsub Hlisten Hpre Hd Hcb.
  unfold subscribe, the_conn. unfold_monad. simpl.
  rewrite Hk. simpl. rewrite Hsub. simpl. rewrite Hlisten. simpl.
  match goal with |- context [listen_loop ?a ?b ?c ?d ?f ?st'] =>
    destruct (listen_loop_raises a b pre m post f e before next Hd Hcb c Hpre st')
      as (t & -> & Hdel & Hsch & Herr)
  end.
  repeat (case_step; simpl in * ); trace_simpl; rewrite ?Hdel, ?Hsch;
    simpl; rewrite ?app_nil_r; split; reflexivity.
Qed.

(** The same, by what leaving the pub/sub block does: the exception that
    leaves the block is the callback's when the closing returns, the
    closing's when the closing raises. *)
Lemma subscribe_callback_raises_result st k channel callback s1 s2 r pre m post
    fin before next e :
  _conn (self st) = Some k ->
  pubsub_subscribe R (mkPubsub k) channel (store st) = (s1, Ret tt) ->
  pubsub_listen R (mkPubsub k) s1 = (pre ++ m :: post, fin) ->
  callback_after callback pre = Some before ->
  is_data_message m = true ->
  invoke before (msg_data m) = (next, Raise e) ->
  pubsub_aclose R (mkPubsub k) s1 = (s2, r) ->
  result (subscribe R channel callback) st
  = fst (handled channel st match r with Ret _ => e | Raise e2 => e2 end) /\
  List.filter is_error_log (trace (after (subscribe R channel callback) st))
  = List.filter is_error_log (trace st)
    ++ snd (handled channel st match r with Ret _ => e | Raise e2 => e2 end).
Proof.
  intros Hk Hsub Hlisten Hpre Hd Hcb Hclose. unfold handled.
  unfold subscribe, the_conn. unfold_monad. simpl.
  rewrite Hk. simpl. rewrite Hsub. simpl. rewrite Hlisten. simpl.
  match goal with |- context [listen_loop ?a ?b ?c ?d ?f ?st'] =>
    destruct (listen_loop_raises a b pre m post f e before next Hd Hcb c Hpre st')
      as (t & -> & Hdel & Hsch & Herr)
  end.
  simpl. rewrite Hclose. simpl.
  destruct r as [[]|e2]; simpl.
  - destruct (isinstance_RedisError e); simpl; trace_simpl; rewrite Herr; simpl;
      rewrite ?app_nil_r; split; reflexivity.
  - destruct (isinstance_RedisError e2); simpl; trace_simpl; rewrite Herr; simpl;
      rewrite ?app_nil_r; split; reflexivity.
Qed.

End ClientFacts.

Section ManagerFacts.
Context {S : Type} (R : RedisLib S).
Implicit Types (st : state S manager) (e : exn) (p : pool).





End ManagerFacts.

(** *** The singleton *)

Lemma construct_again (a : manager_args) (p : process) (m : manager) :
  singleton_instance p = Some m -> RedisConnectionManager a p = (p, m).
Proof. intros H. unfold RedisConnectionManager. rewrite H. reflexivity. Qed.

Lemma construct_sets_instance (a : manager_args) (p : process) :
  singleton_instance (fst (RedisConnectionManager a p))
  = Some (snd (RedisConnectionManager a p)).
Proof.
  unfold RedisConnectionManager.
  destruct (singleton_instance p) eqn:H; simpl; [exact H | reflexivity].
Qed.

Lemma construct_all_again (calls : list manager_args) (p : process) (m : manager) :
  singleton_instance p = Some m ->
  construct_all calls p = (p, replicate (length calls) m).
Proof.
  intros H. induction calls as [|a rest IH]; simpl; [reflexivity|].
  rewrite (construct_again a p m H), IH. reflexivity.
Qed.

(** * The claims *)

(** C1 (the code departs from the claim).  The store counts the new members
    of a set, 2 for ["x"] and ["y"] added to a set that has neither and 0
    for ["x"] added again, and both members are in the set afterwards; but
    [sadd] ends without a [return], so the caller receives Python's [None]
    both times, not the count. *)
Theorem sadd_returns_None_not_the_count :
  let st1 := after (sadd MemRedis "s" ["x"; "y"]) (ready empty_mem) in
  snd (redis_sadd MemRedis demo_conn "s" ["x"; "y"] empty_mem) = Ret 2%Z /\
  result (sadd MemRedis "s" ["x"; "y"]) (ready empty_mem) = Ret None /\
  size <$> (mem_sets (store st1) !! "s") = Some 2 /\
  snd (redis_sadd MemRedis demo_conn "s" ["x"] (store st1)) = Ret 0%Z /\
  result (sadd MemRedis "s" ["x"]) st1 = Ret None.
Proof. vm_compute. repeat split; reflexivity. Qed.

(** On every store and from every state, [sadd] never returns a count. *)
Lemma sadd_never_returns_a_count {S} (R : RedisLib S) (st : state S client)
    (key : string) (values : list string) (n : Z) :
  result (sadd R key values) st <> Ret (Some n).
Proof. intros H. apply sadd_result_inv in H. discriminate. Qed.

(** C4 (the code departs from the claim).  Leaving the [async with] block of
    an initialised client closes the connection, but [__aexit__] does not
    reset [_conn] as [close] does: the reference is still set afterwards. *)
Theorem aexit_leaves_the_connection_reference_set :
  let st := after (__aexit__ MemRedis) (ready empty_mem) in
  Ready (self (ready empty_mem)) /\
  result (__aexit__ MemRedis) (ready empty_mem) = Ret tt /\
  calls_of (trace st) = [CConnect (_pool demo_client); CAclose demo_conn] /\
  _conn (self st) = Some demo_conn /\
  _conn (self (after (close MemRedis) (ready empty_mem))) = None.
Proof.
  split; [exists demo_conn; split; reflexivity|].
  vm_compute. repeat split; reflexivity.
Qed.

(** What [close] does, on every store: on a client with a connection it
    closes that connection and empties the reference, whatever the closing
    raises; on a client without one it does nothing at all. *)
Lemma close_releases_and_clears {S} (R : RedisLib S) (st : state S client) :
  (forall k, _conn (self st) = Some k ->
     calls_of (trace (after (close R) st)) = calls_of (trace st) ++ [CAclose k]) /\
  _conn (self (after (close R) st)) = None /\
  (_conn (self st) = None -> close R st = (st, Ret tt)) /\
  (forall e, result (close R) st = Raise e -> isinstance_RedisError e = false).
Proof.
  repeat split.
  - intros k Hk. exact (close_calls R st k Hk).
  - apply close_conn_None.
  - apply close_when_closed.
  - apply close_swallows.
Qed.

(** On every store, [__aexit__] leaves the client's attributes as they are. *)
Lemma aexit_never_clears {S} (R : RedisLib S) (st : state S client) :
  self (after (__aexit__ R) st) = self st.
Proof. apply aexit_keeps_self. Qed.

(** C6.  When the connection made by [init] raises a store error on a client
    that is not initialised, [init] logs the error and raises that same
    error, and the client is still not initialised: its attributes are
    unchanged, neither connection nor lock is set. *)
Theorem init_failure_leaves_client_uninitialized {S} (R : RedisLib S)
    (st : state S client) (s' : S) (e : exn)
    (Huninit : Uninitialized (self st))
    (Hconnect : redis_connect R (_pool (self st)) (store st) = (s', Raise e))
    (Hstore : isinstance_RedisError e = true) :
  result (init R) st = Raise e /\
  trace (after (init R) st) =
    trace st ++
    [EvCall (CConnect (_pool (self st)));
     EvLog ERROR ("Error initializing Redis connection for "
                  +:+ namespace (self st) +:+ ": " +:+ exn_str e)] /\
  self (after (init R) st) = self st /\
  Uninitialized (self (after (init R) st)).
Proof.
  unfold after, result. rewrite (init_connect_error R st s' e Hconnect Hstore).
  simpl. repeat split; try reflexivity; apply Huninit.
Qed.

Lemma init_failure_leaves_client_uninitialized_witness :
  let st := start (mem_with_fault empty_mem unreachable) in
  Uninitialized (self st) /\
  result (init MemRedis) st = Raise store_error /\
  Uninitialized (self (after (init MemRedis) st)).
Proof.
  intros st.
  pose proof (init_failure_leaves_client_uninitialized MemRedis st
                (store st) store_error
                (conj eq_refl eq_refl) eq_refl eq_refl) as (Hres & _ & _ & Hun).
  split; [split; reflexivity|]. split; [exact Hres | exact Hun].
Defined.

(** C8.  Whatever the arguments, a construction that follows another
    returns the instance of the first, creates no pool and changes nothing
    in the process, so both managers hold the same pool; and of any run of
    constructions in a new process every one returns the manager built
    from the first arguments, one pool object having been created. *)
Theorem manager_is_a_first_wins_singleton :
  (forall (a1 a2 : manager_args) (p : process),
     let p1 := fst (RedisConnectionManager a1 p) in
     let m1 := snd (RedisConnectionManager a1 p) in
     let p2 := fst (RedisConnectionManager a2 p1) in
     let m2 := snd (RedisConnectionManager a2 p1) in
     m2 = m1 /\ get_pool m2 = get_pool m1 /\ p2 = p1) /\
  (forall (a : manager_args) (calls : list manager_args),
     snd (construct_all (a :: calls) fresh_process)
       = replicate (Datatypes.S (length calls)) (RedisConnectionManager__init__ a 0) /\
     next_object_id (fst (construct_all (a :: calls) fresh_process)) = 1).
Proof.
  split.
  - intros a1 a2 p. simpl.
    rewrite (construct_again a2 _ _ (construct_sets_instance a1 p)).
    simpl. repeat split; reflexivity.
  - intros a calls. simpl.
    rewrite (construct_all_again calls
               (mkProcess (Some (RedisConnectionManager__init__ a 0)) 1) _ eq_refl).
    simpl. split; reflexivity.
Qed.



(** *** Every operation and the two references *)

Lemma aenter_covers {S} (R : RedisLib S) (st : state S client) :
  lock_covers_conn (self st) ->
  lock_covers_conn (self (after (__aenter__ R) st)).
Proof.
  intros Hinv. pose proof (init_covers R st Hinv) as Hinit. revert Hinit.
  unfold __aenter__. unfold after. unfold bind at 1 2. unfold get_self at 1.
  destruct (_conn (self st)) eqn:Hk.
  - intros _. exact Hinv.
  - unfold bind. destruct (init R st) as [st' [c|e]]; simpl; auto.
Qed.

Lemma run_op_covers {S} (R : RedisLib S) (o : op) (st : state S client) :
  lock_covers_conn (self st) -> lock_covers_conn (self (run_op R o st)).
Proof.
  intros Hinv. destruct o; simpl.
  - apply init_covers, Hinv.
  - apply init_covers, Hinv.
  - intros Hk. rewrite close_conn_None in Hk. congruence.
  - apply aenter_covers, Hinv.
  - rewrite aexit_keeps_self. exact Hinv.
  - rewrite set_keeps_self. exact Hinv.
  - rewrite get_keeps_self. exact Hinv.
  - rewrite keys_keeps_self. exact Hinv.
  - rewrite publish_keeps_self. exact Hinv.
  - rewrite subscribe_keeps_self. exact Hinv.
  - rewrite sadd_keeps_self. exact Hinv.
Qed.

(** C3, as the code has it.  The lock is present whenever the connection
    is, and every operation keeps it so: a new client has neither, a
    successful [init] sets both, the lock being built on the connection,
    and [close] empties the connection reference only, the lock reference
    staying as it was. *)
Theorem lock_reference_covers_the_connection {S} (R : RedisLib S) :
  (forall ns m, Uninitialized (AsyncRedisClient ns m)) /\
  (forall (st : state S client) c,
     result (init R) st = Ret c -> Ready (self (after (init R) st))) /\
  (forall st : state S client,
     _conn (self (after (close R) st)) = None /\
     _lock (self (after (close R) st)) = _lock (self st)) /\
  (forall ops (st : state S client),
     lock_covers_conn (self st) -> lock_covers_conn (self (run_ops R ops st))).
Proof.
  repeat split.
  - apply init_ok_Ready.
  - apply close_conn_None.
  - apply close_lock.
  - intros ops. unfold run_ops.
    induction ops as [|o ops IH]; intros st Hinv; simpl; [exact Hinv|].
    apply IH, run_op_covers, Hinv.
Qed.

Lemma lock_reference_covers_the_connection_witness :
  let ops := [OpInit; OpSet "a" "1" None; OpClose; OpGet "a"; OpAenter] in
  lock_covers_conn (self (start empty_mem)) /\
  lock_covers_conn (self (run_ops MemRedis ops (start empty_mem))).
Proof.
  intros ops.
  assert (H0 : lock_covers_conn (self (start empty_mem)))
    by (intros H; exact (False_ind _ (H eq_refl))).
  split; [exact H0|].
  exact (proj2 (proj2 (proj2 (lock_reference_covers_the_connection MemRedis)))
           ops (start empty_mem) H0).
Defined.

(** C3, as the claim has it, fails: once an initialised client is closed
    its connection reference is empty and its lock reference is not. *)
Lemma close_leaves_the_lock_without_connection :
  let c := self (after (close MemRedis) (ready empty_mem)) in
  paired (self (ready empty_mem)) /\
  _conn c = None /\ _lock c = Some demo_lock /\ ~ paired c.
Proof.
  intros c. split; [right; split; discriminate|].
  split; [reflexivity|]. split; [reflexivity|].
  intros [[_ H]|[H _]]; [discriminate H | exact (H eq_refl)].
Qed.

(** *** Store errors *)

(** C2, as the code has it.  On a client with a connection and a lock, a
    store error raised by the operation's own store call leaves no
    operation: [get] returns [None], [keys] the empty list, [publish]
    returns, and so do [set] and [sadd] once the lock is acquired and then
    released without error; no store error raised anywhere under
    [subscribe] leaves it, nor does any leave [get], [keys] or [publish];
    [init] raises the store error of its connection again. *)
Theorem store_error_of_the_operation_is_swallowed {S} (R : RedisLib S)
    (st : state S client) (k : conn) (l : lock) (e : exn)
    (Hconn : _conn (self st) = Some k)
    (Hlock : _lock (self st) = Some l)
    (Hstore : isinstance_RedisError e = true) :
  (forall key s',
     redis_get R k key (store st) = (s', Raise e) ->
     result (get R key) st = Ret None) /\
  (forall pattern s',
     redis_keys R k pattern (store st) = (s', Raise e) ->
     result (keys R pattern) st = Ret []) /\
  (forall channel message s',
     redis_publish R k channel message (store st) = (s', Raise e) ->
     result (publish R channel message) st = Ret tt) /\
  (forall key value ex s1 s2 s3,
     lock_acquire R l (store st) = (s1, Ret true) ->
     redis_set R k key value ex s1 = (s2, Raise e) ->
     lock_release R l s2 = (s3, Ret tt) ->
     result (set R key value ex) st = Ret tt) /\
  (forall key values s1 s2 s3,
     lock_acquire R l (store st) = (s1, Ret true) ->
     redis_sadd R k key values s1 = (s2, Raise e) ->
     lock_release R l s2 = (s3, Ret tt) ->
     result (sadd R key values) st = Ret None) /\
  (forall channel callback e',
     result (subscribe R channel callback) st = Raise e' ->
     isinstance_RedisError e' = false) /\
  (forall key e',
     result (get R key) st = Raise e' -> isinstance_RedisError e' = false) /\
  (forall pattern e',
     result (keys R pattern) st = Raise e' -> isinstance_RedisError e' = false) /\
  (forall channel message e',
     result (publish R channel message) st = Raise e' ->
     isinstance_RedisError e' = false) /\
  (forall s',
     redis_connect R (_pool (self st)) (store st) = (s', Raise e) ->
     result (init R) st = Raise e).
Proof.
  repeat split.
  - intros key s' H. unfold result. rewrite (get_store_error R st k key s' e); auto.
  - intros p s' H. unfold result. rewrite (keys_store_error R st k p s' e); auto.
  - intros c m s' H. unfold result.
    rewrite (publish_store_error R st k c m s' e); auto.
  - intros key value ex s1 s2 s3 Ha Hs Hr. unfold result.
    rewrite (set_store_error R st k l key value ex s1 s2 s3 e); auto.
  - intros key values s1 s2 s3 Ha Hs Hr. unfold result.
    rewrite (sadd_store_error R st k l key values s1 s2 s3 e); auto.
  - intros c cb e'. apply subscribe_not_RedisError.
  - intros key e'. apply get_not_RedisError.
  - intros p e'. apply keys_not_RedisError.
  - intros c m e'. apply publish_not_RedisError.
  - intros s' H. unfold result. rewrite (init_connect_error R st s' e); auto.
Qed.

Lemma store_error_of_the_operation_is_swallowed_witness :
  let st := ready_then data_calls_fail in
  (_conn (self st) = Some demo_conn /\ _lock (self st) = Some demo_lock /\
   isinstance_RedisError store_error = true) /\
  result (get MemRedis "a") st = Ret None /\
  result (keys MemRedis "a*") st = Ret [] /\
  result (set MemRedis "a" "1" None) st = Ret tt /\
  result (sadd MemRedis "s" ["x"]) st = Ret None.
Proof.
  intros st.
  pose proof (store_error_of_the_operation_is_swallowed MemRedis st
                demo_conn demo_lock store_error eq_refl eq_refl eq_refl)
    as (Hget & Hkeys & _ & Hset & Hsadd & _).
  split; [repeat split; reflexivity|].
  split; [exact (Hget "a" (store st) eq_refl)|].
  split; [exact (Hkeys "a*" (store st) eq_refl)|].
  split.
  - exact (Hset "a" "1" None _ _ _ eq_refl eq_refl eq_refl).
  - exact (Hsadd "s" ["x"] _ _ _ eq_refl eq_refl eq_refl).
Defined.

(** C2, as the claim has it, fails: when the store stops answering after
    [init], [get] returns [None], but [set] and [sadd] raise the store
    error that acquiring the namespace lock meets, the [try] being inside
    the [async with]. *)
Lemma set_raises_the_store_error_of_the_lock :
  let st := ready_then unreachable in
  Ready (self st) /\
  isinstance_RedisError store_error = true /\
  result (get MemRedis "a") st = Ret None /\
  result (set MemRedis "a" "1" None) st = Raise store_error /\
  result (sadd MemRedis "s" ["x"; "y"]) st = Raise store_error /\
  trace (after (set MemRedis "a" "1" None) st) = [EvCall (CLockAcquire demo_lock)].
Proof.
  intros st. split; [exists demo_conn; split; reflexivity|].
  vm_compute. repeat split; reflexivity.
Qed.

(** *** The namespace lock *)



(** *** The subscription loop *)


(** For a callback without state, returning on every delivery is returning
    on the payload of every data message. *)
Lemma stateless_returns (f : string -> outcome unit) (msgs : list message) :
  callback_returns (stateless f) msgs <->
  Forall (fun m => is_data_message m = true -> f (msg_data m) = Ret tt) msgs.
Proof.
  unfold callback_returns. induction msgs as [|m rest IH]; simpl.
  - split; [constructor | eauto].
  - destruct (is_data_message m) eqn:Hd.
    + change (invoke (stateless f) (msg_data m)) with (stateless f, f (msg_data m)).
      destruct (f (msg_data m)) as [[]|e] eqn:Hf.
      * rewrite IH. split.
        -- intros H. constructor; [intros _; exact Hf | exact H].
        -- intros H. inversion H; assumption.
      * split.
        -- intros [c H]. discriminate H.
        -- intros H. inversion H as [|? ? Hm _]. specialize (Hm Hd). congruence.
    + rewrite IH. split.
      * intros H. constructor; [intros Hm; congruence | exact H].
      * intros H. inversion H; assumption.
Qed.

Lemma accept_all_returns (msgs : list message) : callback_returns accept_all msgs.
Proof.
  unfold callback_returns. induction msgs as [|m rest IH]; simpl; [eauto|].
  destruct (is_data_message m); exact IH.
Qed.


(** C10, as the code has it.  When the callback raises an exception that
    is not a store error on a data message, having returned on the
    deliveries before it, the loop ends there: the callback has been
    invoked on the data messages up to that one and on none after it, and
    no further message is requested.  [subscribe] has no handler for the
    exception: provided that closing the pub/sub handle on leaving the
    block raises nothing, [subscribe] raises that exception and logs no
    error.  When the closing raises, it is the closing's exception that
    leaves the block in place of the callback's: a store error is logged
    and [subscribe] returns, another exception leaves [subscribe]. *)
Theorem subscribe_propagates_the_callback_exception {S} (R : RedisLib S)
    (st : state S client) (k : conn) (channel : string)
    (callback before next : coroutine)
    (s1 : S) (pre : list message) (m : message) (post : list message)
    (fin : stream_end) (e : exn)
    (Hconn : _conn (self st) = Some k)
    (Hsubscribed : pubsub_subscribe R (mkPubsub k) channel (store st) = (s1, Ret tt))
    (Hstream : pubsub_listen R (mkPubsub k) s1 = (pre ++ m :: post, fin))
    (Hbefore : callback_after callback pre = Some before)
    (Hdata : is_data_message m = true)
    (Hraises : invoke before (msg_data m) = (next, Raise e))
    (Hother : isinstance_RedisError e = false) :
  delivered (trace (after (subscribe R channel callback) st))
  = delivered (trace st)
    ++ map msg_data (List.filter is_data_message pre) ++ [msg_data m] /\
  schedule (trace (after (subscribe R channel callback) st))
  = schedule (trace st) ++ flat_map (slot (mkPubsub k)) pre
    ++ [EvCall (CListenNext (mkPubsub k)); EvCallback (msg_data m)] /\
  (forall s2,
     pubsub_aclose R (mkPubsub k) s1 = (s2, Ret tt) ->
     result (subscribe R channel callback) st = Raise e /\
     List.filter is_error_log (trace (after (subscribe R channel callback) st))
     = List.filter is_error_log (trace st)) /\
  (forall s2 e2,
     pubsub_aclose R (mkPubsub k) s1 = (s2, Raise e2) ->
     result (subscribe R channel callback) st = fst (handled channel st e2) /\
     List.filter is_error_log (trace (after (subscribe R channel callback) st))
     = List.filter is_error_log (trace st) ++ snd (handled channel st e2)).
Proof.
  destruct (subscribe_callback_raises_trace R st k channel callback s1 pre m
              post fin before next e Hconn Hsubscribed Hstream Hbefore Hdata
              Hraises) as (Hdel & Hsch).
  split; [exact Hdel|]. split; [exact Hsch|]. split.
  - intros s2 Hleave.
    destruct (subscribe_callback_raises_result R st k channel callback s1 s2
                (Ret tt) pre m post fin before next e Hconn Hsubscribed Hstream
                Hbefore Hdata Hraises Hleave) as (Hres & Hlog).
    unfold handled in Hres, Hlog. rewrite Hother in Hres, Hlog. simpl in Hres, Hlog.
    rewrite app_nil_r in Hlog. split; assumption.
  - intros s2 e2 Hleave.
    exact (subscribe_callback_raises_result R st k channel callback s1 s2
             (Raise e2) pre m post fin before next e Hconn Hsubscribed Hstream
             Hbefore Hdata Hraises Hleave).
Qed.

Lemma subscribe_propagates_the_callback_exception_witness :
  let e := mkExn ValueError "bad payload" in
  let callback := fails_after_the_first e in
  (_conn (self listening_twice) = Some demo_conn /\
   snd (invoke callback "x") = Ret tt /\
   isinstance_RedisError e = false) /\
  delivered (trace (after (subscribe MemRedis "news" callback) listening_twice))
  = ["x"; "x"] /\
  result (subscribe MemRedis "news" callback) listening_twice = Raise e.
Proof.
  intros e callback. split; [repeat split; reflexivity|].
  pose proof (subscribe_propagates_the_callback_exception MemRedis listening_twice
                demo_conn "news" callback
                (mkCoroutine nat (co_call callback) 1)
                (mkCoroutine nat (co_call callback) 2) _
                [mkMessage "subscribe" "news" "1"; mkMessage "message" "news" "x"]
                (mkMessage "message" "news" "x")
                [mkMessage "message" "news" "y"] EndOfStream e
                eq_refl eq_refl eq_refl eq_refl eq_refl eq_refl eq_refl)
    as (Hdel & _ & Hres & _).
  split; [exact Hdel | exact (proj1 (Hres _ eq_refl))].
Defined.

(** C10, as the claim has it, fails: when the pub/sub handle cannot be
    closed, the store error of the closing takes the place of the exception
    the callback raised on ["x"], and is caught: [subscribe] logs it and
    returns normally, so that the callback's exception never reaches the
    caller. *)
Lemma callback_exception_is_lost_when_the_handle_fails_to_close :
  let e := mkExn ValueError "bad payload" in
  let st := after (subscribe MemRedis "news" reject_x) listening_unclosable in
  _conn (self listening_unclosable) = Some demo_conn /\
  snd (invoke reject_x "x") = Raise e /\
  isinstance_RedisError e = false /\
  delivered (trace st) = ["x"] /\
  result (subscribe MemRedis "news" reject_x) listening_unclosable = Ret tt /\
  List.filter is_error_log (trace st)
  = [EvLog ERROR "Error subscribing to channel news in Redis for ns: Connection refused"].
Proof. vm_compute. repeat split; reflexivity. Qed.

(** * The operations one by one *)

(** *** [__aenter__], [close], [__aexit__] *)

Lemma aenter_with_connection {S} (R : RedisLib S) (st : state S client) (k : conn) :
  _conn (self st) = Some k -> __aenter__ R st = (st, Ret (self st)).
Proof. intros Hk. unfold __aenter__. unfold_monad. rewrite Hk. reflexivity. Qed.

Lemma aenter_without_connection {S} (R : RedisLib S) (st : state S client) :
  _conn (self st) = None -> __aenter__ R st = init R st.
Proof.
  intros Hk. pose proof (init_ok_self R st) as Hok. revert Hok.
  unfold __aenter__, after, result. unfold bind at 1 2. unfold get_self at 1.
  rewrite Hk. unfold bind, get_self.
  destruct (init R st) as [st' [c|e]]; simpl; intros Hok; [|reflexivity].
  destruct (Hok c eq_refl) as (k & _ & ->). reflexivity.
Qed.

(** X1.  [__aenter__] initialises only a client without connection: on a
    client that has one it makes no call, changes nothing and returns the
    client; on a client that has none it does what [init] does, raising
    what [init] raises. *)
Theorem aenter_initialises_only_without_connection {S} (R : RedisLib S)
    (st : state S client) :
  (forall k, _conn (self st) = Some k -> __aenter__ R st = (st, Ret (self st))) /\
  (_conn (self st) = None -> __aenter__ R st = init R st).
Proof.
  split.
  - intros k. apply aenter_with_connection.
  - apply aenter_without_connection.
Qed.

(** X2.  [close] on a client with a connection, by what closing the
    connection does: it returns and the closure is logged at info level; it
    raises a store error, which is logged at error level while [close]
    returns normally; it raises another exception, which leaves [close]
    unlogged.  In the three cases the connection reference is emptied and
    the rest of the client is kept. *)
Theorem close_by_outcome {S} (R : RedisLib S)
    (st : state S client) (k : conn)
    (Hconn : _conn (self st) = Some k) :
  (forall s',
     redis_aclose R k (store st) = (s', Ret tt) ->
     close R st =
     ({| self := set_conn (self st) None; store := s';
         trace := trace st ++
           [EvCall (CAclose k);
            EvLog INFO ("Closed Redis connection for namespace "
                        +:+ namespace (self st))] |},
      Ret tt)) /\
  (forall s' e,
     redis_aclose R k (store st) = (s', Raise e) ->
     isinstance_RedisError e = true ->
     close R st =
     ({| self := set_conn (self st) None; store := s';
         trace := trace st ++
           [EvCall (CAclose k);
            EvLog ERROR ("Error closing Redis connection for "
                         +:+ namespace (self st) +:+ ": " +:+ exn_str e)] |},
      Ret tt)) /\
  (forall s' e,
     redis_aclose R k (store st) = (s', Raise e) ->
     isinstance_RedisError e = false ->
     close R st =
     ({| self := set_conn (self st) None; store := s';
         trace := trace st ++ [EvCall (CAclose k)] |},
      Raise e)).
Proof.
  repeat split.
  - intros s' H. unfold close. unfold_monad. rewrite Hconn. simpl.
    rewrite H. simpl. rewrite <- app_assoc. reflexivity.
  - intros s' e H He. unfold close. unfold_monad. rewrite Hconn. simpl.
    rewrite H. simpl. rewrite He. simpl. rewrite <- app_assoc. reflexivity.
  - intros s' e H He. unfold close. unfold_monad. rewrite Hconn. simpl.
    rewrite H. simpl. rewrite He. simpl. reflexivity.
Qed.

Lemma close_by_outcome_witness :
  let st := ready_then (fail_when is_aclose crash) in
  _conn (self st) = Some demo_conn /\
  result (close MemRedis) st = Raise crash /\
  _conn (self (after (close MemRedis) st)) = None /\
  result (close MemRedis) (ready_then (fail_when is_aclose store_error)) = Ret tt.
Proof.
  intros st. split; [reflexivity|].
  pose proof (close_by_outcome MemRedis st demo_conn eq_refl) as (_ & _ & H3).
  pose proof (close_by_outcome MemRedis
                (ready_then (fail_when is_aclose store_error)) demo_conn eq_refl)
    as (_ & H2 & _).
  specialize (H3 (store st) crash eq_refl eq_refl).
  specialize (H2 _ store_error eq_refl eq_refl).
  unfold result, after. rewrite H3, H2. repeat split; reflexivity.
Defined.

(** X3.  Closing twice is closing once: whatever the first [close] did or
    raised, a second [close] right after it makes no call, logs nothing,
    changes nothing and returns. *)
Theorem close_twice_is_close_once {S} (R : RedisLib S) (st : state S client) :
  close R (after (close R) st) = (after (close R) st, Ret tt).
Proof. apply close_when_closed, close_conn_None. Qed.

(** X4.  [__aexit__] has no handler: on a client with a connection it
    closes that connection, logs nothing, keeps the client as it is, and
    returns or raises exactly what the closing returns or raises, a store
    error included; on a client without connection it does nothing. *)
Theorem aexit_passes_the_closing_through {S} (R : RedisLib S)
    (st : state S client) :
  (forall k s' r,
     _conn (self st) = Some k ->
     redis_aclose R k (store st) = (s', r) ->
     __aexit__ R st =
     ({| self := self st; store := s';
         trace := trace st ++ [EvCall (CAclose k)] |}, r)) /\
  (_conn (self st) = None -> __aexit__ R st = (st, Ret tt)).
Proof.
  split.
  - intros k s' r Hk H. unfold __aexit__. unfold_monad. rewrite Hk, H. reflexivity.
  - intros Hk. unfold __aexit__. unfold_monad. rewrite Hk. reflexivity.
Qed.

(** X5.  Entering the scope again.  After [close] the connection reference
    is empty, so [__aenter__] initialises the client anew, with a call to
    connect; after [__aexit__] the reference still holds the connection
    that was closed, so [__aenter__] makes no call and hands the client
    back with that connection. *)
Theorem entering_again {S} (R : RedisLib S)
    (st : state S client) (k : conn)
    (Hconn : _conn (self st) = Some k) :
  __aenter__ R (after (close R) st) = init R (after (close R) st) /\
  calls_of (trace (after (__aenter__ R) (after (close R) st)))
  = calls_of (trace st) ++ [CAclose k; CConnect (_pool (self st))] /\
  __aenter__ R (after (__aexit__ R) st)
  = (after (__aexit__ R) st, Ret (self st)) /\
  _conn (self (after (__aenter__ R) (after (__aexit__ R) st))) = Some k.
Proof.
  assert (Hre : __aenter__ R (after (close R) st) = init R (after (close R) st)).
  { apply aenter_without_connection, close_conn_None. }
  assert (Hex : __aenter__ R (after (__aexit__ R) st)
                = (after (__aexit__ R) st, Ret (self st))).
  { rewrite (aenter_with_connection R _ k);
      rewrite aexit_keeps_self; [reflexivity | exact Hconn]. }
  split; [exact Hre|]. split; [|split; [exact Hex|]].
  - unfold after at 1. rewrite Hre.
    assert (Hp : _pool (self (after (close R) st)) = _pool (self st)).
    { unfold close. run_method; finish. }
    pose proof (close_calls R st k Hconn) as Hc. revert Hc Hp.
    generalize (after (close R) st). intros st1 Hc Hp.
    unfold init. run_method; finish; trace_simpl; rewrite Hc, ?Hp;
      rewrite <- ?app_assoc; reflexivity.
  - unfold after at 1. rewrite Hex. simpl. rewrite aexit_keeps_self. exact Hconn.
Qed.

Lemma entering_again_witness :
  _conn (self (ready empty_mem)) = Some demo_conn /\
  calls_of (trace (after (__aenter__ MemRedis)
                     (after (close MemRedis) (ready empty_mem))))
  = [CConnect (_pool demo_client); CAclose demo_conn; CConnect (_pool demo_client)] /\
  calls_of (trace (after (__aenter__ MemRedis)
                     (after (__aexit__ MemRedis) (ready empty_mem))))
  = [CConnect (_pool demo_client); CAclose demo_conn].
Proof.
  split; [reflexivity|]. split.
  - exact (proj1 (proj2 (entering_again MemRedis (ready empty_mem) demo_conn eq_refl))).
  - reflexivity.
Defined.

(** *** Operations on a client that is not ready *)

(** X6.  On a client that was never initialised every operation fails at
    once: it raises an exception that is not a store error, and it makes no
    call, logs nothing and leaves the client as it was. *)
Theorem operations_fail_before_init {S} (R : RedisLib S)
    (st : state S client)
    (Huninit : Uninitialized (self st)) :
  (forall key, fails_untouched (get R key) st) /\
  (forall pattern, fails_untouched (keys R pattern) st) /\
  (forall channel message, fails_untouched (publish R channel message) st) /\
  (forall channel callback, fails_untouched (subscribe R channel callback) st) /\
  (forall key value ex, fails_untouched (set R key value ex) st) /\
  (forall key values, fails_untouched (sadd R key values) st).
Proof.
  destruct Huninit as (Hk & Hl). unfold fails_untouched.
  repeat split; intros.
  - unfold get, the_conn. unfold_monad. rewrite Hk. simpl. eauto.
  - unfold keys, the_conn. unfold_monad. rewrite Hk. simpl. eauto.
  - unfold publish, the_conn. unfold_monad. rewrite Hk. simpl. eauto.
  - unfold subscribe, the_conn. unfold_monad. rewrite Hk. simpl. eauto.
  - unfold set, with_lock. unfold_monad. rewrite Hl. simpl. eauto.
  - unfold sadd, with_lock. unfold_monad. rewrite Hl. simpl. eauto.
Qed.

Lemma operations_fail_before_init_witness :
  Uninitialized (self (start empty_mem)) /\
  fails_untouched (get MemRedis "a") (start empty_mem) /\
  fails_untouched (set MemRedis "a" "1" None) (start empty_mem).
Proof.
  pose proof (operations_fail_before_init MemRedis (start empty_mem)
                (conj eq_refl eq_refl)) as (Hget & _ & _ & _ & Hset & _).
  split; [split; reflexivity|]. split; [apply Hget | apply Hset].
Defined.

(** X7.  On a client that was initialised and then closed the lock is still
    there and the connection is not: [set] and [sadd] acquire the lock,
    fail on the missing connection before any store call, and release the
    lock; the exception is not a store error and is not logged. *)
Theorem set_and_sadd_after_close {S} (R : RedisLib S)
    (st : state S client) (l : lock) (s1 s2 : S)
    (Hconn : _conn (self st) = None)
    (Hlock : _lock (self st) = Some l)
    (Hacquire : lock_acquire R l (store st) = (s1, Ret true))
    (Hrelease : lock_release R l s1 = (s2, Ret tt)) :
  (forall key value ex, exists e,
     isinstance_RedisError e = false /\
     set R key value ex st =
     ({| self := self st; store := s2;
         trace := trace st ++ [EvCall (CLockAcquire l); EvCall (CLockRelease l)] |},
      Raise e)) /\
  (forall key values, exists e,
     isinstance_RedisError e = false /\
     sadd R key values st =
     ({| self := self st; store := s2;
         trace := trace st ++ [EvCall (CLockAcquire l); EvCall (CLockRelease l)] |},
      Raise e)).
Proof.
  split; intros.
  - unfold set, with_lock, the_conn. unfold_monad. rewrite Hlock. simpl.
    rewrite Hacquire. simpl. rewrite Hconn. simpl. rewrite Hrelease. simpl.
    eexists. split; [|rewrite <- app_assoc; reflexivity]. reflexivity.
  - unfold sadd, with_lock, the_conn. unfold_monad. rewrite Hlock. simpl.
    rewrite Hacquire. simpl. rewrite Hconn. simpl. rewrite Hrelease. simpl.
    eexists. split; [|rewrite <- app_assoc; reflexivity]. reflexivity.
Qed.

Lemma set_and_sadd_after_close_witness :
  (_conn (self closed) = None /\ _lock (self closed) = Some demo_lock) /\
  calls_of (trace (after (set MemRedis "a" "1" None) closed))
  = calls_of (trace closed) ++ [CLockAcquire demo_lock; CLockRelease demo_lock] /\
  mem_held (store (after (set MemRedis "a" "1" None) closed)) = ∅.
Proof.
  split; [split; reflexivity|].
  destruct (proj1 (set_and_sadd_after_close MemRedis closed demo_lock _ _
                     eq_refl eq_refl eq_refl eq_refl) "a" "1" None)
    as (e & _ & Heq).
  unfold after. rewrite Heq. split; reflexivity.
Defined.

(** *** The lock's own failures *)

(** X8.  When acquiring the lock raises, [set] and [sadd] raise that
    exception: the store call is not made, the lock is not released and
    nothing is logged. *)
Theorem lock_acquire_failure_stops_the_operation {S} (R : RedisLib S)
    (st : state S client) (l : lock) (s1 : S) (e : exn)
    (Hlock : _lock (self st) = Some l)
    (Hacquire : lock_acquire R l (store st) = (s1, Raise e)) :
  (forall key value ex,
     set R key value ex st =
     ({| self := self st; store := s1;
         trace := trace st ++ [EvCall (CLockAcquire l)] |}, Raise e)) /\
  (forall key values,
     sadd R key values st =
     ({| self := self st; store := s1;
         trace := trace st ++ [EvCall (CLockAcquire l)] |}, Raise e)).
Proof.
  split; intros.
  - unfold set, with_lock. unfold_monad. rewrite Hlock. simpl.
    rewrite Hacquire. reflexivity.
  - unfold sadd, with_lock. unfold_monad. rewrite Hlock. simpl.
    rewrite Hacquire. reflexivity.
Qed.

Lemma lock_acquire_failure_stops_the_operation_witness :
  let st := ready_then (fail_when is_acquire store_error) in
  _lock (self st) = Some demo_lock /\
  result (sadd MemRedis "s" ["x"]) st = Raise store_error /\
  mem_sets (store (after (sadd MemRedis "s" ["x"]) st)) = ∅.
Proof.
  intros st. split; [reflexivity|].
  pose proof (proj2 (lock_acquire_failure_stops_the_operation MemRedis st
                       demo_lock (store st) store_error eq_refl eq_refl)
                "s" ["x"]) as Heq.
  unfold result, after. rewrite Heq. split; reflexivity.
Defined.

(** X9.  When releasing the lock raises, [set] and [sadd] raise that
    exception, whatever the store call did before: returned, or raised a
    store error that was caught and logged. *)
Theorem lock_release_failure_reaches_the_caller {S} (R : RedisLib S)
    (st : state S client) (k : conn) (l : lock) (s1 : S)
    (Hconn : _conn (self st) = Some k)
    (Hlock : _lock (self st) = Some l)
    (Hacquire : lock_acquire R l (store st) = (s1, Ret true)) :
  (forall key value ex e,
     snd (lock_release R l (fst (redis_set R k key value ex s1))) = Raise e ->
     result (set R key value ex) st = Raise e) /\
  (forall key values e,
     snd (lock_release R l (fst (redis_sadd R k key values s1))) = Raise e ->
     result (sadd R key values) st = Raise e).
Proof.
  split.
  - intros key value ex e. unfold set, with_lock, the_conn.
    unfold_monad. simpl. rewrite Hlock. simpl. rewrite Hacquire. simpl.
    rewrite Hconn. simpl.
    destruct (redis_set R k key value ex s1) as [s2 [[]|e2]]; simpl;
      [|destruct (isinstance_RedisError e2); simpl];
      destruct (lock_release R l s2) as [s3 [[]|e3]]; simpl; congruence.
  - intros key values e. unfold sadd, with_lock, the_conn.
    unfold_monad. simpl. rewrite Hlock. simpl. rewrite Hacquire. simpl.
    rewrite Hconn. simpl.
    destruct (redis_sadd R k key values s1) as [s2 [n|e2]]; simpl;
      [|destruct (isinstance_RedisError e2); simpl];
      destruct (lock_release R l s2) as [s3 [[]|e3]]; simpl; congruence.
Qed.

Lemma lock_release_failure_reaches_the_caller_witness :
  let st := ready_then (fail_when is_release store_error) in
  (_conn (self st) = Some demo_conn /\ _lock (self st) = Some demo_lock) /\
  result (set MemRedis "a" "1" None) st = Raise store_error /\
  mem_kv (store (after (set MemRedis "a" "1" None) st)) !! "a" = Some "1".
Proof.
  intros st. split; [split; reflexivity|]. split.
  - exact (proj1 (lock_release_failure_reaches_the_caller MemRedis st
                    demo_conn demo_lock _ eq_refl eq_refl eq_refl)
             "a" "1" None store_error eq_refl).
  - reflexivity.
Defined.

(** *** What the operations hand back and let through *)

Lemma get_store_answer {S} (R : RedisLib S) (st : state S client) (k : conn)
    (key : string) (s' : S) (v : option string) :
  _conn (self st) = Some k ->
  redis_get R k key (store st) = (s', Ret v) ->
  get R key st =
  ({| self := self st; store := s';
      trace := trace st ++
        [EvCall (CGet k key);
         EvLog DEBUG ("Got key " +:+ key +:+ " in namespace "
                      +:+ namespace (self st))] |},
   Ret v).
Proof.
  intros Hconn H. unfold get, the_conn. unfold_monad. simpl.
  rewrite Hconn. simpl. rewrite H. simpl. rewrite <- app_assoc. reflexivity.
Qed.

(** X10.  When the store answers, [get] and [keys] return its answer as it
    is, an absent value for [get] included, after one store call for the
    key or pattern as given and a debug line; no error is logged. *)
Theorem get_and_keys_return_the_answer {S} (R : RedisLib S)
    (st : state S client) (k : conn)
    (Hconn : _conn (self st) = Some k) :
  (forall key s' v,
     redis_get R k key (store st) = (s', Ret v) ->
     get R key st =
     ({| self := self st; store := s';
         trace := trace st ++
           [EvCall (CGet k key);
            EvLog DEBUG ("Got key " +:+ key +:+ " in namespace "
                         +:+ namespace (self st))] |},
      Ret v)) /\
  (forall pattern s' ks,
     redis_keys R k pattern (store st) = (s', Ret ks) ->
     keys R pattern st =
     ({| self := self st; store := s';
         trace := trace st ++
           [EvCall (CKeys k pattern);
            EvLog DEBUG ("Got keys matching pattern " +:+ pattern
                         +:+ " in namespace " +:+ namespace (self st))] |},
      Ret ks)).
Proof.
  split.
  - intros key s' v H. exact (get_store_answer R st k key s' v Hconn H).
  - intros p s' ks H. unfold keys, the_conn. unfold_monad. simpl.
    rewrite Hconn. simpl. rewrite H. simpl. rewrite <- app_assoc. reflexivity.
Qed.

Lemma get_and_keys_return_the_answer_witness :
  _conn (self (ready empty_mem)) = Some demo_conn /\
  result (get MemRedis "never-set") (ready empty_mem) = Ret None /\
  List.filter is_error_log (trace (after (get MemRedis "never-set") (ready empty_mem)))
  = [].
Proof.
  split; [reflexivity|].
  pose proof (proj1 (get_and_keys_return_the_answer MemRedis (ready empty_mem)
                       demo_conn eq_refl) "never-set" _ None eq_refl) as Heq.
  unfold result, after. rewrite Heq. split; reflexivity.
Defined.

(** X11.  Only store errors are caught.  An exception of another kind
    raised by the store call leaves [get], [keys] and [publish] as it is,
    unlogged; it leaves [set] and [sadd] too, after the lock is released. *)
Theorem other_exceptions_pass_through {S} (R : RedisLib S)
    (st : state S client) (k : conn) (l : lock) (e : exn)
    (Hconn : _conn (self st) = Some k)
    (Hlock : _lock (self st) = Some l)
    (Hother : isinstance_RedisError e = false) :
  (forall key s',
     redis_get R k key (store st) = (s', Raise e) ->
     get R key st =
     ({| self := self st; store := s';
         trace := trace st ++ [EvCall (CGet k key)] |}, Raise e)) /\
  (forall pattern s',
     redis_keys R k pattern (store st) = (s', Raise e) ->
     keys R pattern st =
     ({| self := self st; store := s';
         trace := trace st ++ [EvCall (CKeys k pattern)] |}, Raise e)) /\
  (forall channel message s',
     redis_publish R k channel message (store st) = (s', Raise e) ->
     publish R channel message st =
     ({| self := self st; store := s';
         trace := trace st ++ [EvCall (CPublish k channel message)] |}, Raise e)) /\
  (forall key value ex s1 s2 s3,
     lock_acquire R l (store st) = (s1, Ret true) ->
     redis_set R k key value ex s1 = (s2, Raise e) ->
     lock_release R l s2 = (s3, Ret tt) ->
     set R key value ex st =
     ({| self := self st; store := s3;
         trace := trace st ++
           [EvCall (CLockAcquire l); EvCall (CSet k key value ex);
            EvCall (CLockRelease l)] |}, Raise e)) /\
  (forall key values s1 s2 s3,
     lock_acquire R l (store st) = (s1, Ret true) ->
     redis_sadd R k key values s1 = (s2, Raise e) ->
     lock_release R l s2 = (s3, Ret tt) ->
     sadd R key values st =
     ({| self := self st; store := s3;
         trace := trace st ++
           [EvCall (CLockAcquire l); EvCall (CSadd k key values);
            EvCall (CLockRelease l)] |}, Raise e)).
Proof.
  repeat split.
  - intros key s' H. unfold get, the_conn. unfold_monad. simpl.
    rewrite Hconn. simpl. rewrite H. simpl. rewrite Hother. reflexivity.
  - intros p s' H. unfold keys, the_conn. unfold_monad. simpl.
    rewrite Hconn. simpl. rewrite H. simpl. rewrite Hother. reflexivity.
  - intros c m s' H. unfold publish, the_conn. unfold_monad. simpl.
    rewrite Hconn. simpl. rewrite H. simpl. rewrite Hother. reflexivity.
  - intros key value ex s1 s2 s3 Ha Hs Hr. unfold set, with_lock, the_conn.
    unfold_monad. simpl. rewrite Hlock. simpl. rewrite Ha. simpl.
    rewrite Hconn. simpl. rewrite Hs. simpl. rewrite Hother. simpl.
    rewrite Hr. simpl. rewrite <- !app_assoc. reflexivity.
  - intros key values s1 s2 s3 Ha Hs Hr. unfold sadd, with_lock, the_conn.
    unfold_monad. simpl. rewrite Hlock. simpl. rewrite Ha. simpl.
    rewrite Hconn. simpl. rewrite Hs. simpl. rewrite Hother. simpl.
    rewrite Hr. simpl. rewrite <- !app_assoc. reflexivity.
Qed.

Lemma other_exceptions_pass_through_witness :
  let st := ready_then (fail_when is_data crash) in
  (_conn (self st) = Some demo_conn /\ _lock (self st) = Some demo_lock /\
   isinstance_RedisError crash = false) /\
  result (get MemRedis "a") st = Raise crash /\
  result (set MemRedis "a" "1" None) st = Raise crash /\
  mem_held (store (after (set MemRedis "a" "1" None) st)) = ∅.
Proof.
  intros st. split; [repeat split; reflexivity|].
  pose proof (other_exceptions_pass_through MemRedis st demo_conn demo_lock
                crash eq_refl eq_refl eq_refl) as (Hget & _ & _ & Hset & _).
  specialize (Hget "a" _ eq_refl).
  specialize (Hset "a" "1" None _ _ _ eq_refl eq_refl eq_refl).
  unfold result, after. rewrite Hget, Hset. repeat split; reflexivity.
Defined.

(** X12.  [get], [keys] and [publish] are one round trip each: on a client
    with a connection each makes exactly one call, the store call for its
    own arguments, whatever that call returns or raises. *)
Theorem reads_are_one_round_trip {S} (R : RedisLib S)
    (st : state S client) (k : conn)
    (Hconn : _conn (self st) = Some k) :
  (forall key,
     calls_of (trace (after (get R key) st)) = calls_of (trace st) ++ [CGet k key]) /\
  (forall pattern,
     calls_of (trace (after (keys R pattern) st))
     = calls_of (trace st) ++ [CKeys k pattern]) /\
  (forall channel message,
     calls_of (trace (after (publish R channel message) st))
     = calls_of (trace st) ++ [CPublish k channel message]).
Proof.
  repeat split; intros.
  - unfold get, the_conn. run_method; finish; trace_simpl; reflexivity.
  - unfold keys, the_conn. run_method; finish; trace_simpl; reflexivity.
  - unfold publish, the_conn. run_method; finish; trace_simpl; reflexivity.
Qed.

Lemma reads_are_one_round_trip_witness :
  let st := ready_then unreachable in
  _conn (self st) = Some demo_conn /\
  calls_of (trace (after (publish MemRedis "news" "x") st))
  = [CPublish demo_conn "news" "x"].
Proof.
  intros st. split; [reflexivity|].
  exact (proj2 (proj2 (reads_are_one_round_trip MemRedis st demo_conn eq_refl))
           "news" "x").
Defined.

(** X13.  [set] then [get].  When the lock is acquired and released and the
    store accepts the write, [set] returns, the client is unchanged, and a
    [get] that follows asks the store, in the state the release left, for
    the key as given: it returns what the store then answers. *)
Theorem set_then_get {S} (R : RedisLib S)
    (st : state S client) (k : conn) (l : lock)
    (key value : string) (ex : option Z) (s1 s2 s3 s4 : S) (v : option string)
    (Hconn : _conn (self st) = Some k)
    (Hlock : _lock (self st) = Some l)
    (Hacquire : lock_acquire R l (store st) = (s1, Ret true))
    (Hset : redis_set R k key value ex s1 = (s2, Ret tt))
    (Hrelease : lock_release R l s2 = (s3, Ret tt))
    (Hget : redis_get R k key s3 = (s4, Ret v)) :
  set R key value ex st =
  ({| self := self st; store := s3;
      trace := trace st ++
        [EvCall (CLockAcquire l); EvCall (CSet k key value ex);
         EvLog DEBUG ("Set key " +:+ key +:+ " in namespace " +:+ namespace (self st));
         EvCall (CLockRelease l)] |}, Ret tt) /\
  result (get R key) (after (set R key value ex) st) = Ret v /\
  store (after (get R key) (after (set R key value ex) st)) = s4.
Proof.
  assert (Heq : set R key value ex st =
    ({| self := self st; store := s3;
        trace := trace st ++
          [EvCall (CLockAcquire l); EvCall (CSet k key value ex);
           EvLog DEBUG ("Set key " +:+ key +:+ " in namespace " +:+ namespace (self st));
           EvCall (CLockRelease l)] |}, Ret tt)).
  { unfold set, with_lock, the_conn. unfold_monad. simpl. rewrite Hlock. simpl.
    rewrite Hacquire. simpl. rewrite Hconn. simpl. rewrite Hset. simpl.
    rewrite Hrelease. simpl. rewrite <- !app_assoc. reflexivity. }
  split; [exact Heq|].
  assert (Haft : after (set R key value ex) st = fst (set R key value ex st))
    by reflexivity.
  rewrite Haft, Heq. simpl. unfold result, after.
  match goal with |- context [get R key ?st1] =>
    rewrite (get_store_answer R st1 k key s4 v Hconn Hget)
  end.
  split; reflexivity.
Qed.

Lemma set_then_get_witness :
  (_conn (self (ready empty_mem)) = Some demo_conn /\
   _lock (self (ready empty_mem)) = Some demo_lock) /\
  result (get MemRedis "a") (after (set MemRedis "a" "1" (Some 60%Z)) (ready empty_mem))
  = Ret (Some "1").
Proof.
  split; [split; reflexivity|].
  exact (proj1 (proj2 (set_then_get MemRedis (ready empty_mem) demo_conn demo_lock
                         "a" "1" (Some 60%Z) _ _ _ _ (Some "1")
                         eq_refl eq_refl eq_refl eq_refl eq_refl eq_refl))).
Defined.

(** *** More on [subscribe] *)

Lemma last_after_calls (l : list call) (c : call) (mid : list call) (x : call) :
  last (l ++ c :: mid ++ [x]) = Some x.
Proof. rewrite app_comm_cons, app_assoc. apply last_snoc. Qed.

Lemma push_inj {S O} (st : state S O) (t1 t2 : list event) :
  push st t1 = push st t2 -> t1 = t2.
Proof.
  unfold push. intros H. injection H as H. exact (app_inv_head _ _ _ H).
Qed.

(** The loop on a stream the callback handles: its result, and no error
    line. *)
Lemma listen_loop_returns_quietly {S} (ps : pubsub) (channel : string)
    (callback : coroutine) (msgs : list message) (fin : stream_end)
    (st : state S client) :
  callback_returns callback msgs ->
  exists t,
    listen_loop ps channel callback msgs fin st =
      (push st t,
       match fin with EndOfStream => Ret tt | StreamRaises e => Raise e end) /\
    List.filter is_error_log t = [].
Proof.
  intros Hcb.
  destruct (listen_loop_returns ps channel msgs fin callback Hcb st)
    as (t & Heq & _).
  destruct (listen_loop_push ps channel msgs fin callback st) as (t' & Ht' & _ & He).
  unfold after in Ht'. rewrite Heq in Ht'. simpl in Ht'.
  apply push_inj in Ht'. subst t'. exists t. split; assumption.
Qed.

(** X14.  When the subscription itself raises a store error, [subscribe]
    invokes the callback on nothing, requests no message, closes the
    pub/sub handle, logs the error and returns normally. *)
Theorem subscribe_when_the_subscription_fails {S} (R : RedisLib S)
    (st : state S client) (k : conn) (channel : string)
    (callback : coroutine) (s1 s2 : S) (e : exn)
    (Hconn : _conn (self st) = Some k)
    (Hsubscribe : pubsub_subscribe R (mkPubsub k) channel (store st) = (s1, Raise e))
    (Hstore : isinstance_RedisError e = true)
    (Hleave : pubsub_aclose R (mkPubsub k) s1 = (s2, Ret tt)) :
  subscribe R channel callback st =
  ({| self := self st; store := s2;
      trace := trace st ++
        [EvCall (CPubsubSubscribe (mkPubsub k) channel);
         EvCall (CPubsubAclose (mkPubsub k));
         EvLog ERROR ("Error subscribing to channel " +:+ channel
                      +:+ " in Redis for " +:+ namespace (self st)
                      +:+ ": " +:+ exn_str e)] |},
   Ret tt).
Proof.
  unfold subscribe, the_conn. unfold_monad. simpl. rewrite Hconn. simpl.
  rewrite Hsubscribe. simpl. rewrite Hleave. simpl. rewrite Hstore. simpl.
  rewrite <- !app_assoc. reflexivity.
Qed.

Lemma subscribe_when_the_subscription_fails_witness :
  let st := ready_then (fail_when is_pubsub_subscribe store_error) in
  (_conn (self st) = Some demo_conn /\ isinstance_RedisError store_error = true) /\
  result (subscribe MemRedis "news" accept_all) st = Ret tt /\
  delivered (trace (after (subscribe MemRedis "news" accept_all) st)) = [].
Proof.
  intros st. split; [split; reflexivity|].
  pose proof (subscribe_when_the_subscription_fails MemRedis st demo_conn "news"
                accept_all _ _ store_error eq_refl eq_refl eq_refl eq_refl) as Heq.
  unfold result, after. rewrite Heq. split; reflexivity.
Defined.

(** X15.  [subscribe] never leaves the pub/sub handle open: on a client
    with a connection, whatever the subscription, the stream and the
    callback do, the last call it makes is the closing of the handle. *)
Theorem subscribe_always_closes_the_handle {S} (R : RedisLib S)
    (st : state S client) (k : conn) (channel : string)
    (callback : coroutine)
    (Hconn : _conn (self st) = Some k) :
  last (calls_of (trace (after (subscribe R channel callback) st)))
  = Some (CPubsubAclose (mkPubsub k)).
Proof.
  unfold subscribe, the_conn. unfold_monad. simpl. rewrite Hconn. simpl.
  destruct (pubsub_subscribe R _ channel (store st)) as [s1 [[]|e]]; simpl.
  - match goal with |- context [listen_loop ?a ?b ?c ?d ?f ?st'] =>
      destruct (listen_loop_push a b d f c st') as (t & Ht & _);
      unfold after in Ht;
      destruct (listen_loop a b c d f st') as [st2 r]; simpl in Ht; subst st2
    end.
    repeat (case_step; simpl in * ); trace_simpl; apply last_after_calls.
  - repeat (case_step; simpl in * ); trace_simpl;
      apply (last_after_calls _ _ []).
Qed.

Lemma subscribe_always_closes_the_handle_witness :
  _conn (self listening) = Some demo_conn /\
  last (calls_of (trace (after (subscribe MemRedis "news" reject_x) listening)))
  = Some (CPubsubAclose (mkPubsub demo_conn)).
Proof.
  split; [reflexivity|].
  exact (subscribe_always_closes_the_handle MemRedis listening demo_conn "news"
           reject_x eq_refl).
Defined.

(** X16.  A store error raised by the callback is handled as one of the
    subscription: the loop ends at that message, and, the pub/sub handle
    being closed without error, [subscribe] logs the error and returns
    normally; the messages after it are never delivered.  The callback may
    have returned before on the very payload it now fails on. *)
Theorem subscribe_swallows_a_store_error_of_the_callback {S} (R : RedisLib S)
    (st : state S client) (k : conn) (channel : string)
    (callback before next : coroutine)
    (s1 s2 : S) (pre : list message) (m : message) (post : list message)
    (fin : stream_end) (e : exn)
    (Hconn : _conn (self st) = Some k)
    (Hsubscribed : pubsub_subscribe R (mkPubsub k) channel (store st) = (s1, Ret tt))
    (Hstream : pubsub_listen R (mkPubsub k) s1 = (pre ++ m :: post, fin))
    (Hbefore : callback_after callback pre = Some before)
    (Hdata : is_data_message m = true)
    (Hraises : invoke before (msg_data m) = (next, Raise e))
    (Hstore : isinstance_RedisError e = true)
    (Hleave : pubsub_aclose R (mkPubsub k) s1 = (s2, Ret tt)) :
  result (subscribe R channel callback) st = Ret tt /\
  delivered (trace (after (subscribe R channel callback) st))
  = delivered (trace st)
    ++ map msg_data (List.filter is_data_message pre) ++ [msg_data m] /\
  schedule (trace (after (subscribe R channel callback) st))
  = schedule (trace st) ++ flat_map (slot (mkPubsub k)) pre
    ++ [EvCall (CListenNext (mkPubsub k)); EvCallback (msg_data m)] /\
  List.filter is_error_log (trace (after (subscribe R channel callback) st))
  = List.filter is_error_log (trace st) ++
    [EvLog ERROR ("Error subscribing to channel " +:+ channel
                  +:+ " in Redis for " +:+ namespace (self st)
                  +:+ ": " +:+ exn_str e)].
Proof.
  destruct (subscribe_callback_raises_trace R st k channel callback s1 pre m
              post fin before next e Hconn Hsubscribed Hstream Hbefore Hdata
              Hraises) as (Hdel & Hsch).
  destruct (subscribe_callback_raises_result R st k channel callback s1 s2
              (Ret tt) pre m post fin before next e Hconn Hsubscribed Hstream
              Hbefore Hdata Hraises Hleave) as (Hres & Hlog).
  unfold handled in Hres, Hlog. rewrite Hstore in Hres, Hlog. simpl in Hres, Hlog.
  repeat split; assumption.
Qed.

Lemma subscribe_swallows_a_store_error_of_the_callback_witness :
  let callback := fails_after_the_first store_error in
  (_conn (self listening_twice) = Some demo_conn /\
   snd (invoke callback "x") = Ret tt /\
   isinstance_RedisError store_error = true) /\
  result (subscribe MemRedis "news" callback) listening_twice = Ret tt /\
  delivered (trace (after (subscribe MemRedis "news" callback) listening_twice))
  = ["x"; "x"].
Proof.
  intros callback. split; [repeat split; reflexivity|].
  pose proof (subscribe_swallows_a_store_error_of_the_callback MemRedis
                listening_twice demo_conn "news" callback
                (mkCoroutine nat (co_call callback) 1)
                (mkCoroutine nat (co_call callback) 2) _ _
                [mkMessage "subscribe" "news" "1"; mkMessage "message" "news" "x"]
                (mkMessage "message" "news" "x")
                [mkMessage "message" "news" "y"] EndOfStream store_error
                eq_refl eq_refl eq_refl eq_refl eq_refl eq_refl eq_refl eq_refl)
    as (Hres & Hdel & _).
  split; [exact Hres | exact Hdel].
Defined.

(** X17.  How [subscribe] ends on a stream the callback handles, the
    pub/sub handle being closed without error: when the stream is exhausted
    it returns and logs no error; when the stream breaks with a store error
    it logs that error and returns normally all the same; when the stream
    breaks with another exception, that exception leaves [subscribe]
    unlogged. *)
Theorem subscribe_by_the_end_of_the_stream {S} (R : RedisLib S)
    (st : state S client) (k : conn) (channel : string)
    (callback : coroutine)
    (s1 s2 : S) (msgs : list message) (fin : stream_end)
    (Hconn : _conn (self st) = Some k)
    (Hsubscribed : pubsub_subscribe R (mkPubsub k) channel (store st) = (s1, Ret tt))
    (Hstream : pubsub_listen R (mkPubsub k) s1 = (msgs, fin))
    (Hcallback : callback_returns callback msgs)
    (Hleave : pubsub_aclose R (mkPubsub k) s1 = (s2, Ret tt)) :
  let errors t := List.filter is_error_log t in
  let st' := after (subscribe R channel callback) st in
  match fin with
  | EndOfStream =>
      result (subscribe R channel callback) st = Ret tt /\
      errors (trace st') = errors (trace st)
  | StreamRaises e =>
      if isinstance_RedisError e then
        result (subscribe R channel callback) st = Ret tt /\
        errors (trace st') = errors (trace st) ++
          [EvLog ERROR ("Error subscribing to channel " +:+ channel
                        +:+ " in Redis for " +:+ namespace (self st)
                        +:+ ": " +:+ exn_str e)]
      else
        result (subscribe R channel callback) st = Raise e /\
        errors (trace st') = errors (trace st)
  end.
Proof.
  intros errors st'. unfold st', errors.
  unfold subscribe, the_conn. unfold_monad. simpl.
  rewrite Hconn. simpl. rewrite Hsubscribed. simpl. rewrite Hstream. simpl.
  match goal with |- context [listen_loop ?a ?b ?c ?d ?f ?st0] =>
    destruct (listen_loop_returns_quietly a b c d f st0 Hcallback)
      as (t & -> & Herr)
  end.
  destruct fin as [|e]; simpl; rewrite Hleave; simpl.
  - trace_simpl. rewrite Herr. simpl. rewrite app_nil_r. split; reflexivity.
  - destruct (isinstance_RedisError e); simpl; trace_simpl; rewrite Herr; simpl;
      rewrite ?app_nil_r; split; reflexivity.
Qed.

Lemma subscribe_by_the_end_of_the_stream_witness :
  (_conn (self listening_broken) = Some demo_conn /\
   callback_returns accept_all (mkMessage "subscribe" "news" "1" :: demo_inbox)) /\
  result (subscribe MemRedis "news" accept_all) listening_broken = Ret tt /\
  delivered (trace (after (subscribe MemRedis "news" accept_all) listening_broken))
  = ["x"; "y"].
Proof.
  split; [split; [reflexivity | apply accept_all_returns]|].
  split; [|reflexivity].
  exact (proj1 (subscribe_by_the_end_of_the_stream MemRedis listening_broken
                  demo_conn "news" accept_all _ _
                  (mkMessage "subscribe" "news" "1" :: demo_inbox)
                  (StreamRaises store_error)
                  eq_refl eq_refl eq_refl (accept_all_returns _) eq_refl)).
Defined.

(** *** [init] again, and what no operation changes *)

(** X18.  [init] always connects anew.  When the connection is made, the
    client holds that connection and a lock built on it under the key
    ["<namespace>:lock"], whatever it held before: a connection and a lock
    of an earlier [init] are replaced, and the only call made is the one
    that connects, so the earlier connection is not closed.  [init]
    returns the client. *)
Theorem init_connects_anew {S} (R : RedisLib S)
    (st : state S client) (k' : conn) (s' : S)
    (Hconnect : redis_connect R (_pool (self st)) (store st) = (s', Ret k')) :
  let c' := {| namespace := namespace (self st);
               _pool := _pool (self st);
               _lock := Some (mkLock k' (namespace (self st) +:+ ":lock"));
               _conn := Some k' |} in
  init R st =
  ({| self := c'; store := s';
      trace := trace st ++
        [EvCall (CConnect (_pool (self st)));
         EvLog DEBUG ("Initialized Redis connection for namespace "
                      +:+ namespace (self st))] |},
   Ret c').
Proof.
  intros c'. unfold init. unfold_monad. simpl. rewrite Hconnect. simpl.
  rewrite <- app_assoc. reflexivity.
Qed.

Lemma init_connects_anew_witness :
  let st := ready empty_mem in
  _conn (self st) = Some demo_conn /\
  _conn (self (after (init MemRedis) st)) = Some (mkConn 1 (_pool demo_client)) /\
  calls_of (trace (after (init MemRedis) st))
  = [CConnect (_pool demo_client); CConnect (_pool demo_client)].
Proof.
  intros st. split; [reflexivity|].
  pose proof (init_connects_anew MemRedis st (mkConn 1 (_pool demo_client)) _
                eq_refl) as Heq.
  unfold after. rewrite Heq. split; reflexivity.
Defined.

(** What an operation can do to the client's attributes: nothing, empty
    the connection reference, or set connection and lock as [init] does. *)
Lemma run_op_self_cases {S} (R : RedisLib S) (o : op) (st : state S client) :
  self (run_op R o st) = self st \/
  self (run_op R o st) = set_conn (self st) None \/
  exists k, self (run_op R o st) =
            {| namespace := namespace (self st);
               _pool := _pool (self st);
               _lock := Some (mkLock k (namespace (self st) +:+ ":lock"));
               _conn := Some k |}.
Proof.
  assert (Hinit : forall st0 : state S client,
            self (after (init R) st0) = self st0 \/
            exists k, self (after (init R) st0) =
                      {| namespace := namespace (self st0);
                         _pool := _pool (self st0);
                         _lock := Some (mkLock k (namespace (self st0) +:+ ":lock"));
                         _conn := Some k |}).
  { intros st0. destruct (result (init R) st0) as [c|e] eqn:Hres.
    - right. destruct (init_ok_self R st0 c Hres) as (k & Hk & _). eauto.
    - left. exact (init_raise_self R st0 e Hres). }
  destruct o; simpl.
  - destruct (Hinit st) as [H|H]; auto.
  - destruct (Hinit st) as [H|H]; auto.
  - destruct (_conn (self st)) as [k|] eqn:Hk.
    + right; left. unfold close. run_method; finish; congruence.
    + left. unfold after. rewrite (close_when_closed R st Hk). reflexivity.
  - destruct (_conn (self st)) as [k|] eqn:Hk.
    + left. unfold after. rewrite (aenter_with_connection R st k Hk). reflexivity.
    + unfold after. rewrite (aenter_without_connection R st Hk).
      destruct (Hinit st) as [H|H]; auto.
  - left. apply aexit_keeps_self.
  - left. apply set_keeps_self.
  - left. apply get_keeps_self.
  - left. apply keys_keeps_self.
  - left. apply publish_keeps_self.
  - left. apply subscribe_keeps_self.
  - left. apply sadd_keeps_self.
Qed.

(** X19.  Through any sequence of operations on a client built for the
    namespace [ns] on a manager [m], whatever each returns or raises, the
    client keeps its namespace and the manager's pool; its lock, once set,
    is always keyed ["<ns>:lock"]; and whenever it has a connection its
    lock is the one built on that very connection. *)
Theorem namespace_pool_and_lock_key_never_change {S} (R : RedisLib S)
    (ops : list op) (ns : string) (m : manager) (s : S) (t : list event) :
  let c := self (run_ops R ops {| self := AsyncRedisClient ns m; store := s; trace := t |}) in
  namespace c = ns /\
  _pool c = get_pool m /\
  lock_named c /\
  (forall k, _conn c = Some k -> _lock c = Some (mkLock k (ns +:+ ":lock"))).
Proof.
  set (I := fun c : client =>
              namespace c = ns /\ _pool c = get_pool m /\ lock_named c /\
              (forall k, _conn c = Some k -> _lock c = Some (mkLock k (ns +:+ ":lock")))).
  assert (Hstep : forall o (st : state S client), I (self st) -> I (self (run_op R o st))).
  { intros o st (Hn & Hp & Hl & Hc).
    destruct (run_op_self_cases R o st) as [-> | [-> | (k & ->)]]; unfold I.
    - auto.
    - simpl. repeat split; auto. intros k Hk. discriminate Hk.
    - simpl. rewrite Hn. repeat split; auto.
      + intros l Hlk. simpl in Hlk. injection Hlk as <-. reflexivity.
      + intros k0 Hk0. injection Hk0 as <-. reflexivity. }
  assert (Hall : forall (st : state S client), I (self st) -> I (self (run_ops R ops st))).
  { unfold run_ops. induction ops as [|o ops' IH]; intros st HI; simpl; auto. }
  apply Hall. unfold I. simpl. repeat split; auto.
  - intros l Hl. discriminate Hl.
  - intros k Hk. discriminate Hk.
Qed.

(** *** [RedisConnectionManager.close], the other outcomes *)

(** X20.  [close] of the manager, by what disconnecting the pool does: it
    returns, and the closure is logged at info level; it raises an
    exception that is not a store error, which leaves [close] unlogged.  On
    a manager whose pool reference is empty [close] does nothing. *)
Theorem manager_close_by_outcome {S} (R : RedisLib S) (st : state S manager) :
  (forall p s',
     mgr_pool (self st) = Some p ->
     pool_disconnect R p (store st) = (s', Ret tt) ->
     manager_close R st =
     ({| self := self st; store := s';
         trace := trace st ++
           [EvCall (CPoolDisconnect p); EvLog INFO "Closed Redis connection pool"] |},
      Ret tt)) /\
  (forall p s' e,
     mgr_pool (self st) = Some p ->
     pool_disconnect R p (store st) = (s', Raise e) ->
     isinstance_RedisError e = false ->
     manager_close R st =
     ({| self := self st; store := s';
         trace := trace st ++ [EvCall (CPoolDisconnect p)] |},
      Raise e)) /\
  (mgr_pool (self st) = None -> manager_close R st = (st, Ret tt)).
Proof.
  repeat split.
  - intros p s' Hp H. unfold manager_close. unfold_monad. simpl.
    rewrite Hp. simpl. rewrite H. simpl. rewrite <- app_assoc. reflexivity.
  - intros p s' e Hp H He. unfold manager_close. unfold_monad. simpl.
    rewrite Hp. simpl. rewrite H. simpl. rewrite He. reflexivity.
  - intros Hp. unfold manager_close. unfold_monad. simpl.
    rewrite Hp. reflexivity.
Qed.
